(** * Chess-Challenge: knight sequences on a keypad

    A shallow embedding of [chess-challenge.cpp] and the proofs of the
    properties stated about it.

    Conventions of the model.
    - [char] is [ascii], [std::string] is [string], [vector<T>] is
      [list T] and [unordered_map<char, T>] is [gmap ascii T].
    - [int] coordinates and offsets are integers in [Z]; the [unsigned int]
      members [sequenceLength] and [maxVowelCount], sizes and vowel counts
      are natural numbers.  The coordinates the program computes stay
      within an offset of the piece of the layout, and layouts and offsets
      are taken to be far below [2 ^ 31], so overflow of these additions
      is not represented; the one [int] that does wrap on realistic runs,
      the running total of [displayTotalSequences], is reduced to 32 bits
      explicitly.
    - A call either returns, throws a [std::exception], runs into undefined
      behaviour (an index outside a vector), or, for the [while] loop of
      the breadth-first search, runs out of the fuel the model gives it. *)

From Stdlib Require Import ZArith Ascii String List Lia DecimalString.
From stdpp Require Import base tactics option list list_numbers gmap strings fin_maps.

Local Open Scope Z_scope.

(** ** Results of calls *)

Inductive exception : Type :=
  | invalid_argument (what : string)
  | out_of_range (what : string).

Definition what (e : exception) : string :=
  match e with
  | invalid_argument w => w
  | out_of_range w => w
  end.

Inductive result (A : Type) : Type :=
  | Ok (a : A)
  | Throw (e : exception)
  | Undefined
  | OutOfFuel.

Arguments Ok {A} a.
Arguments Throw {A} e.
Arguments Undefined {A}.
Arguments OutOfFuel {A}.

Definition result_bind {A B : Type} (f : A → result B) (r : result A) : result B :=
  match r with
  | Ok a => f a
  | Throw e => Throw e
  | Undefined => Undefined
  | OutOfFuel => OutOfFuel
  end.

#[global] Instance result_mbind : MBind result := @result_bind.
#[global] Instance result_mret : MRet result := @Ok.

(** A [for] loop over the elements of [l], threading the state [s]. *)
Fixpoint for_each {A S : Type} (l : list A) (body : A → S → result S) (s : S) : result S :=
  match l with
  | [] => Ok s
  | a :: l' => s' ← body a s; for_each l' body s'
  end.

(** ** Types of the program *)

Abbreviation Coordinates := (Z * Z)%type.
Abbreviation CharVector2D := (list (list ascii)).
Abbreviation ValidKeyMoves := (gmap ascii (list Coordinates)).
Abbreviation KeySequences := (gmap ascii (list string)).

(** [v[i]] on a vector, with an [int] index: outside the vector the
    behaviour is undefined. *)
Definition index {A : Type} (v : list A) (i : Z) : result A :=
  if decide (0 ≤ i) then
    match v !! Z.to_nat i with
    | Some a => Ok a
    | None => Undefined
    end
  else Undefined.

(** [layout[x][y]] *)
Definition at2 (layout : CharVector2D) (x y : Z) : result ascii :=
  row ← index layout x; index row y.

(** ** The chess piece interface and the knight *)

Class ChessPiece : Type := {
  GetMoves : list Coordinates;
  IsValidMove : Z → Z → Z → Z → ascii → CharVector2D → result bool
}.

Module Knight.

Definition GetMoves : list Coordinates :=
  [(-2, -1); (-2, 1); (-1, -2); (-1, 2); (1, -2); (1, 2); (2, -1); (2, 1)].

Definition IsValidMove (x y moveX moveY : Z) (invalidKey : ascii)
    (layout : CharVector2D) : result bool :=
  let ROWS := Z.of_nat (length layout) in
  row0 ← index layout 0;
  let COLS := Z.of_nat (length row0) in
  let newX := x + moveX in
  let newY := y + moveY in
  if (0 <=? newX) && (newX <? ROWS) && (0 <=? newY) && (newY <? COLS) then
    key ← at2 layout newX newY;
    Ok (negb (Ascii.eqb key invalidKey) &&
        (((1 =? Z.abs moveX) && (2 =? Z.abs moveY)) ||
         ((2 =? Z.abs moveX) && (1 =? Z.abs moveY))))
  else Ok false.

End Knight.

#[global] Instance Knight : ChessPiece :=
  {| GetMoves := Knight.GetMoves; IsValidMove := Knight.IsValidMove |}.

(** ** The keyboard layout *)

Record KeyboardLayout : Type := {
  invalidKey : ascii;
  layout : CharVector2D
}.

Definition is_empty {A : Type} (v : list A) : bool :=
  match v with [] => true | _ => false end.

Module KeyboardLayout.

(** The constructor. [newLayout[0]] is only read when [newLayout] is
    not empty. *)
Definition new (newInvalidKey : ascii) (newLayout : CharVector2D) : result KeyboardLayout :=
  if is_empty newLayout || match newLayout with [] => true | row0 :: _ => is_empty row0 end then
    Throw (invalid_argument "Layout dimensions must be non-zero.")
  else Ok {| invalidKey := newInvalidKey; layout := newLayout |}.

Definition GetLayout (k : KeyboardLayout) : CharVector2D := layout k.

Definition GetInvalidKey (k : KeyboardLayout) : ascii := invalidKey k.

Definition GetRows (k : KeyboardLayout) : nat :=
  if is_empty (layout k) then 0%nat else length (layout k).

Definition GetCols (k : KeyboardLayout) : nat :=
  match layout k with
  | [] => 0%nat
  | row0 :: _ => length row0
  end.

End KeyboardLayout.

(** ** The keyboard *)

Record Keyboard : Type := {
  sequenceLength : nat;
  maxVowelCount : nat;
  keyboardLayout : KeyboardLayout;
  chessPiecePtr : ChessPiece;
  keyMoves : ValidKeyMoves
}.

(** [s.find(c)]: the position of the first [c] in [s], if there is one. *)
Fixpoint find (s : string) (c : ascii) : option nat :=
  match s with
  | EmptyString => None
  | String c' s' => if Ascii.eqb c' c then Some 0%nat else S <$> find s' c
  end.

Definition IsVowel (key : ascii) : bool :=
  let vowels := "AEIOU"%string in
  match find vowels key with Some _ => true | None => false end.

Fixpoint CountVowels (seq : string) : nat :=
  match seq with
  | EmptyString => 0%nat
  | String c seq' => ((if IsVowel c then 1 else 0) + CountVowels seq')%nat
  end.

(** [seq + c] *)
Definition push_char (seq : string) (c : ascii) : string :=
  seq +:+ String c EmptyString.

(** The indices [0, 1, ..., n - 1] of a [for (int i = 0; i < n; i++)]. *)
Definition range (n : nat) : list Z := seqZ 0 (Z.of_nat n).

(** The moves of the piece that are valid from [(i, j)], in the order of
    [GetMoves]: the inner loop of [SetValidMovesForAllKeys]. *)
Definition valid_moves_at (piece : ChessPiece) (invalidKey : ascii)
    (layout : CharVector2D) (i j : Z) : result (list Coordinates) :=
  for_each (@GetMoves piece)
    (λ move moves,
       ok ← @IsValidMove piece i j move.1 move.2 invalidKey layout;
       Ok (if ok : bool then moves ++ [(move.1, move.2)] else moves))
    [].

(** [keyMoves.insert({key, moves})]: an existing entry is kept. *)
Definition map_insert {V : Type} (m : gmap ascii V) (key : ascii) (v : V) : gmap ascii V :=
  match m !! key with
  | Some _ => m
  | None => <[key := v]> m
  end.

Definition SetValidMovesForAllKeys (keyboardLayout : KeyboardLayout)
    (piece : ChessPiece) (keyMoves : ValidKeyMoves) : result ValidKeyMoves :=
  let ROWS := KeyboardLayout.GetRows keyboardLayout in
  let COLS := KeyboardLayout.GetCols keyboardLayout in
  let layout := KeyboardLayout.GetLayout keyboardLayout in
  let invalidKey := KeyboardLayout.GetInvalidKey keyboardLayout in
  for_each (range ROWS)
    (λ i, for_each (range COLS)
       (λ j keyMoves,
          key ← at2 layout i j;
          if negb (Ascii.eqb key invalidKey) then
            moves ← valid_moves_at piece invalidKey layout i j;
            Ok (map_insert keyMoves key moves)
          else Ok keyMoves))
    keyMoves.

(** [keyMoves.at(key)] *)
Definition GetValidMovesForAKey (keyMoves : ValidKeyMoves) (key : ascii) : result (list Coordinates) :=
  match keyMoves !! key with
  | Some moves => Ok moves
  | None => Throw (out_of_range "unordered_map::at")
  end.

(** [sequences[key].push_back(seq)]: a missing entry starts empty. *)
Definition push_back (sequences : KeySequences) (key : ascii) (seq : string) : KeySequences :=
  <[key := default [] (sequences !! key) ++ [seq]]> sequences.

Abbreviation Queue := (list (string * Coordinates)).

Section GenerateSequences.

Context (kb : Keyboard).

Let layout_ := KeyboardLayout.GetLayout (keyboardLayout kb).

(** The loop over the valid moves from [(x, y)]: every move pushes the
    sequence extended by the key it leads to. *)
Definition push_moves (seq : string) (x y : Z) (moves : list Coordinates) (q : Queue)
    : result Queue :=
  for_each moves
    (λ move q,
       let newX := x + move.1 in
       let newY := y + move.2 in
       c ← at2 layout_ newX newY;
       Ok (q ++ [(push_char seq c, (newX, newY))]))
    q.

(** One iteration of the [while] loop for the starting key at [(i, j)]:
    [front] has been popped and [q] is the rest of the queue. *)
Definition bfs_body (i j : Z) (front : string * Coordinates) (q : Queue)
    (sequences : KeySequences) : result (Queue * KeySequences) :=
  let '(seq, (x, y)) := front in
  if (maxVowelCount kb <? CountVowels seq)%nat then Ok (q, sequences)
  else if (String.length seq =? sequenceLength kb)%nat then
    key ← at2 layout_ i j;
    Ok (q, push_back sequences key seq)
  else
    key ← at2 layout_ x y;
    moves ← GetValidMovesForAKey (keyMoves kb) key;
    q' ← push_moves seq x y moves q;
    Ok (q', sequences).

(** [while (!q.empty())], with at most [fuel] iterations. *)
Fixpoint bfs_while (fuel : nat) (i j : Z) (q : Queue) (sequences : KeySequences)
    : result KeySequences :=
  match q with
  | [] => Ok sequences
  | front :: q' =>
      match fuel with
      | O => OutOfFuel
      | S fuel' =>
          st ← bfs_body i j front q' sequences;
          bfs_while fuel' i j st.1 st.2
      end
  end.

Definition GenerateSequences (fuel : nat) : result KeySequences :=
  let ROWS := KeyboardLayout.GetRows (keyboardLayout kb) in
  let COLS := KeyboardLayout.GetCols (keyboardLayout kb) in
  let invalidKey := KeyboardLayout.GetInvalidKey (keyboardLayout kb) in
  for_each (range ROWS)
    (λ i, for_each (range COLS)
       (λ j sequences,
          key ← at2 layout_ i j;
          if negb (Ascii.eqb key invalidKey) then
            bfs_while fuel i j [(String key EmptyString, (i, j))] sequences
          else Ok sequences))
    ∅.

End GenerateSequences.

(** ** Streams, constructor of the keyboard, and [main] *)

Record Streams : Type := {
  cout : string;
  cerr : string
}.

Definition endl : string := String (ascii_of_nat 10) EmptyString.

Definition to_cout (io : Streams) (s : string) : Streams :=
  {| cout := cout io +:+ s; cerr := cerr io |}.

Definition to_cerr (io : Streams) (s : string) : Streams :=
  {| cout := cout io; cerr := cerr io +:+ s |}.

Module KeyboardCtor.

Definition new (_sequenceLength _maxVowelCount : nat) (_keyboardLayout : KeyboardLayout)
    (_chessPiecePtr : ChessPiece) (io : Streams) : Streams * result Keyboard :=
  let body :=
    if (0 =? _sequenceLength)%nat then
      Throw (invalid_argument "Sequence length must be non-zero.")
    else
      keyMoves ← SetValidMovesForAllKeys _keyboardLayout _chessPiecePtr ∅;
      Ok {| sequenceLength := _sequenceLength;
            maxVowelCount := _maxVowelCount;
            keyboardLayout := _keyboardLayout;
            chessPiecePtr := _chessPiecePtr;
            keyMoves := keyMoves |} in
  match body with
  | Throw e =>
      (to_cerr io ("Exception during Keyboard initialization: " +:+ what e +:+ endl), Throw e)
  | r => (io, r)
  end.

End KeyboardCtor.

(** Conversion of a wide integer to a 32-bit [int]. *)
Definition to_int (z : Z) : Z := (z + 2 ^ 31) mod 2 ^ 32 - 2 ^ 31.

(** [cout << n] for an [int]. *)
Definition show_int (n : Z) : string := NilEmpty.string_of_int (Z.to_int n).

(** The number of sequences stored in the map. *)
Definition total_sequences (sequences : KeySequences) : nat :=
  map_fold (λ _ seqs n, (n + length seqs)%nat) 0%nat sequences.

Definition displayTotalSequences (kb : Keyboard) (fuel : nat) (io : Streams)
    : Streams * result unit :=
  match GenerateSequences kb fuel with
  | Ok sequences =>
      let totalSequenceCout :=
        map_fold (λ _ seqs total, to_int (total + Z.of_nat (length seqs))) 0 sequences in
      (to_cout io ("Total number of sequences: " +:+ show_int totalSequenceCout +:+ endl), Ok ())
  | Throw e =>
      (to_cerr io ("Exception during sequence generation: " +:+ what e +:+ endl), Throw e)
  | Undefined => (io, Undefined)
  | OutOfFuel => (io, OutOfFuel)
  end.

Definition EXIT_SUCCESS : Z := 0.
Definition EXIT_FAILURE : Z := 1.

(** The body of [main] for a given configuration. *)
Definition main_with (_sequenceLength _maxVowelCount : nat) (invalidKey : ascii)
    (layout : CharVector2D) (fuel : nat) (io : Streams) : Streams * result Z :=
  let failed (io : Streams) :=
    (to_cerr io ("Program execution failed. Terminating..." +:+ endl), Ok EXIT_FAILURE) in
  match KeyboardLayout.new invalidKey layout with
  | Ok keyboardLayout =>
      match KeyboardCtor.new _sequenceLength _maxVowelCount keyboardLayout Knight io with
      | (io, Ok keyboard) =>
          match displayTotalSequences keyboard fuel io with
          | (io, Ok _) => (io, Ok EXIT_SUCCESS)
          | (io, Throw _) => failed io
          | (io, Undefined) => (io, Undefined)
          | (io, OutOfFuel) => (io, OutOfFuel)
          end
      | (io, Throw _) => failed io
      | (io, Undefined) => (io, Undefined)
      | (io, OutOfFuel) => (io, OutOfFuel)
      end
  | Throw _ => failed io
  | Undefined => (io, Undefined)
  | OutOfFuel => (io, OutOfFuel)
  end.

Definition NUL : ascii := "000"%char.

Definition main_layout : CharVector2D :=
  [ ["A"; "B"; "C"; "D"; "E"];
    ["F"; "G"; "H"; "I"; "J"];
    ["K"; "L"; "M"; "N"; "O"];
    [NUL; "1"; "2"; "3"; NUL] ]%char.

Definition main (fuel : nat) : Streams * result Z :=
  main_with 10 2 NUL main_layout fuel {| cout := ""; cerr := "" |}.

(** ** Walks: what the enumeration is expected to count *)

Definition rows (lay : CharVector2D) : nat := length lay.

Definition cols (lay : CharVector2D) : nat :=
  match lay with
  | [] => 0%nat
  | row0 :: _ => length row0
  end.

(** All rows have the length of the first one, and there is a cell. *)
Definition rectangular (lay : CharVector2D) : Prop :=
  (0 < rows lay)%nat ∧ (0 < cols lay)%nat ∧ Forall (λ row, length row = cols lay) lay.

(** No key other than the invalid one is on two cells. *)
Definition distinct_keys (inv : ascii) (lay : CharVector2D) : Prop :=
  NoDup (filter (λ key, key ≠ inv) (concat lay)).

(** The cells [(i, j)] in the order the two nested loops visit them. *)
Definition cells (lay : CharVector2D) : list Coordinates :=
  i ← range (rows lay); (λ j, (i, j)) <$> range (cols lay).

Definition move_to (pos move : Coordinates) : Coordinates :=
  (pos.1 + move.1, pos.2 + move.2).

Definition is_Ok {A : Type} (r : result A) : Prop := ∃ a, r = Ok a.

Section Walks.

Context (lay : CharVector2D) (inv : ascii) (km : ValidKeyMoves).

(** The table answers every lookup the enumeration can make: the key
    of every cell the loops start from has an entry, and every offset
    listed for the key of a cell leads to a cell whose key has an entry
    too. The offsets listed for a key are pairwise distinct. *)
Definition closed_table : Prop :=
  (∀ c key, c ∈ cells lay → at2 lay c.1 c.2 = Ok key → key ≠ inv → is_Some (km !! key)) ∧
  (∀ c, c ∈ cells lay → is_Ok (at2 lay c.1 c.2)) ∧
  (∀ pos key moves, at2 lay pos.1 pos.2 = Ok key → km !! key = Some moves →
     NoDup moves ∧
     ∀ move, move ∈ moves →
       ∃ key', at2 lay (move_to pos move).1 (move_to pos move).2 = Ok key' ∧
               is_Some (km !! key')).

(** A cell the enumeration starts from. *)
Definition start_cell (c : Coordinates) : Prop :=
  (0 ≤ c.1 < Z.of_nat (rows lay)) ∧ (0 ≤ c.2 < Z.of_nat (cols lay)) ∧
  ∃ key, at2 lay c.1 c.2 = Ok key ∧ key ≠ inv.

(** One step of a walk: the offset from [c] to [c'] is listed in the
    table for the key of [c], and [c'] is a cell of the layout. *)
Definition step (c c' : Coordinates) : Prop :=
  ∃ key moves, at2 lay c.1 c.2 = Ok key ∧ km !! key = Some moves ∧
    (c'.1 - c.1, c'.2 - c.2) ∈ moves ∧ is_Ok (at2 lay c'.1 c'.2).

Fixpoint chain (c : Coordinates) (w : list Coordinates) : Prop :=
  match w with
  | [] => True
  | c' :: w' => step c c' ∧ chain c' w'
  end.

(** The keys along a walk. *)
Fixpoint labels (w : list Coordinates) : string :=
  match w with
  | [] => EmptyString
  | c :: w' =>
      match at2 lay c.1 c.2 with
      | Ok key => String key (labels w')
      | _ => labels w'
      end
  end.

(** A walk of [L] cells from a valid cell, whatever its vowels. *)
Definition walk (L : nat) (w : list Coordinates) : Prop :=
  length w = L ∧ ∃ c w', w = c :: w' ∧ start_cell c ∧ chain c w'.

(** A walk none of whose prefixes has more than [mv] vowels. *)
Definition valid_walk (mv L : nat) (w : list Coordinates) : Prop :=
  walk L w ∧ ∀ n, (CountVowels (labels (take n w)) ≤ mv)%nat.

(** The continuations by [d] more cells of the partial sequence [seq]
    that ends at [pos], in the order the enumeration completes them. *)
Fixpoint extensions (mv d : nat) (seq : string) (pos : Coordinates)
    : list (list Coordinates) :=
  if (mv <? CountVowels seq)%nat then []
  else
    match d with
    | O => [[]]
    | S d' =>
        match at2 lay pos.1 pos.2 with
        | Ok key =>
            match km !! key with
            | Some moves =>
                move ← moves;
                let pos' := move_to pos move in
                match at2 lay pos'.1 pos'.2 with
                | Ok c => (cons pos') <$> extensions mv d' (push_char seq c) pos'
                | _ => []
                end
            | None => []
            end
        | _ => []
        end
    end.

(** The number of partial sequences the loop dequeues below (and
    including) the partial sequence [seq] that ends at [pos]. *)
Fixpoint tree_size (mv d : nat) (seq : string) (pos : Coordinates) : nat :=
  if (mv <? CountVowels seq)%nat then 1%nat
  else
    match d with
    | O => 1%nat
    | S d' =>
        match at2 lay pos.1 pos.2 with
        | Ok key =>
            match km !! key with
            | Some moves =>
                S (foldr (λ move n,
                     let pos' := move_to pos move in
                     match at2 lay pos'.1 pos'.2 with
                     | Ok c => (tree_size mv d' (push_char seq c) pos' + n)%nat
                     | _ => n
                     end) 0%nat moves)
            | None => 1%nat
            end
        | _ => 1%nat
        end
    end.

(** The number of [extensions], from the number of vowels so far. *)
Fixpoint count_extensions (mv d vowels : nat) (pos : Coordinates) : N :=
  if (mv <? vowels)%nat then 0%N
  else
    match d with
    | O => 1%N
    | S d' =>
        match at2 lay pos.1 pos.2 with
        | Ok key =>
            match km !! key with
            | Some moves =>
                foldr (λ move n,
                  let pos' := move_to pos move in
                  match at2 lay pos'.1 pos'.2 with
                  | Ok c =>
                      (count_extensions mv d'
                         (vowels + if IsVowel c then 1 else 0)%nat pos' + n)%N
                  | _ => n
                  end) 0%N moves
            | None => 0%N
            end
        | _ => 0%N
        end
    end.

(** The walks from the cell [c], when it is a valid one. *)
Definition walks_from (mv L : nat) (c : Coordinates) : list (list Coordinates) :=
  match at2 lay c.1 c.2 with
  | Ok key =>
      if negb (Ascii.eqb key inv) then
        (cons c) <$> extensions mv (L - 1) (String key EmptyString) c
      else []
  | _ => []
  end.

Definition all_walks (mv L : nat) : list (list Coordinates) :=
  c ← cells lay; walks_from mv L c.

(** Iterations that are enough for every [while] loop of the run. *)
Definition fuel_from (mv L : nat) (c : Coordinates) : nat :=
  match at2 lay c.1 c.2 with
  | Ok key => tree_size mv (L - 1) (String key EmptyString) c
  | _ => 0%nat
  end.

Definition enough_fuel (mv L : nat) : nat :=
  foldr (λ c n, (fuel_from mv L c + n)%nat) 0%nat (cells lay).

Definition count_from (mv L : nat) (c : Coordinates) : N :=
  match at2 lay c.1 c.2 with
  | Ok key =>
      if negb (Ascii.eqb key inv) then
        count_extensions mv (L - 1) (if IsVowel key then 1 else 0)%nat c
      else 0%N
  | _ => 0%N
  end.

Definition count_all (mv L : nat) : N :=
  foldr (λ c n, (count_from mv L c + n)%N) 0%N (cells lay).

(** What is left to count for a queue. *)
Definition pending (mv L : nat) (q : Queue) : nat :=
  foldr (λ node n,
    (length (extensions mv (L - String.length node.1) node.1 node.2) + n)%nat) 0%nat q.

Definition queue_size (mv L : nat) (q : Queue) : nat :=
  foldr (λ node n,
    (tree_size mv (L - String.length node.1) node.1 node.2 + n)%nat) 0%nat q.

(** The partial sequences pushed for the offsets [moves] of a dequeued
    sequence [seq] that ends at [(x, y)]. *)
Definition pushed (seq : string) (x y : Z) (moves : list Coordinates) (cs : Queue) : Prop :=
  Forall2 (λ move node,
    ∃ c, at2 lay (x + move.1) (y + move.2) = Ok c ∧
         node = (push_char seq c, (x + move.1, y + move.2))) moves cs.

(** A partial sequence of at most [L] keys. *)
Definition short (L : nat) (node : string * Coordinates) : Prop :=
  (String.length node.1 ≤ L)%nat.

(** A partial sequence that ends on a cell whose key has an entry. *)
Definition on_key (node : string * Coordinates) : Prop :=
  ∃ key, at2 lay node.2.1 node.2.2 = Ok key ∧ is_Some (km !! key).

End Walks.

(** The keyboard with the table [km] on the layout [lay]. *)
Definition keyboard_of (L mv : nat) (inv : ascii) (lay : CharVector2D)
    (km : ValidKeyMoves) : Keyboard :=
  {| sequenceLength := L;
     maxVowelCount := mv;
     keyboardLayout := {| invalidKey := inv; layout := lay |};
     chessPiecePtr := Knight;
     keyMoves := km |}.

(** The body of the two loops of [GenerateSequences], for the cell [c]. *)
Definition from_cell (kb : Keyboard) (fuel : nat) (c : Coordinates)
    (sequences : KeySequences) : result KeySequences :=
  let lay := layout (keyboardLayout kb) in
  key ← at2 lay c.1 c.2;
  if negb (Ascii.eqb key (invalidKey (keyboardLayout kb))) then
    bfs_while kb fuel c.1 c.2 [(String key EmptyString, (c.1, c.2))] sequences
  else Ok sequences.

(** The number of sequences a run with [fuel] returns. *)
Definition aggregate_count (kb : Keyboard) (fuel : nat) : result nat :=
  sequences ← GenerateSequences kb fuel; Ok (total_sequences sequences).

(** The layouts the specification rejects: no row, a row without a key,
    or two rows of different lengths. *)
Definition rejected_layout (lay : CharVector2D) : Prop :=
  lay = [] ∨ [] ∈ lay ∨ ∃ row1 row2, row1 ∈ lay ∧ row2 ∈ lay ∧ length row1 ≠ length row2.

Definition throws {A : Type} (r : result A) : Prop := ∃ e, r = Throw e.

(** The first cell of [l] that carries [key]. *)
Fixpoint first_cell (lay : CharVector2D) (key : ascii) (l : list Coordinates)
    : option Coordinates :=
  match l with
  | [] => None
  | c :: l' =>
      match at2 lay c.1 c.2 with
      | Ok k => if Ascii.eqb k key then Some c else first_cell lay key l'
      | _ => first_cell lay key l'
      end
  end.

(** The shape of a knight move. *)
Definition knight_shape (moveX moveY : Z) : Prop :=
  (Z.abs moveX = 1 ∧ Z.abs moveY = 2) ∨ (Z.abs moveX = 2 ∧ Z.abs moveY = 1).

(** The body of the two loops of [SetValidMovesForAllKeys], for the cell [c]. *)
Definition table_cell (piece : ChessPiece) (inv : ascii) (lay : CharVector2D)
    (c : Coordinates) (keyMoves : ValidKeyMoves) : result ValidKeyMoves :=
  key ← at2 lay c.1 c.2;
  if negb (Ascii.eqb key inv) then
    moves ← valid_moves_at piece inv lay c.1 c.2;
    Ok (map_insert keyMoves key moves)
  else Ok keyMoves.


(** A layout with a key on two cells. *)
Definition repeated_key_layout : CharVector2D :=
  [ ["B"; "B"; "C"; "D"];
    ["E"; "F"; "G"; NUL] ]%char.

(** The cells counted when sequences have one key: the valid cells,
    except, when no vowel is allowed, those with a vowel. *)
Definition counted_alone (lay : CharVector2D) (inv : ascii) (mv : nat)
    (c : Coordinates) : bool :=
  match at2 lay c.1 c.2 with
  | Ok key => negb (Ascii.eqb key inv) && (negb (IsVowel key) || (1 <=? mv)%nat)
  | _ => false
  end.

(** ** Further notions for the properties of the code *)

(** The letters [IsVowel] looks for. *)
Definition vowel_letters : list ascii := ["A"; "E"; "I"; "O"; "U"]%char.

(** No row is shorter than the first one. *)
Definition no_short_row (lay : CharVector2D) : Prop :=
  Forall (λ row, (cols lay ≤ length row)%nat) lay.

(** The offset that undoes [move]. *)
Definition opposite (move : Coordinates) : Coordinates := (- move.1, - move.2).

(** All the sequences of the map, whatever their key. *)
Definition stored (sequences : KeySequences) : list string :=
  map_to_list sequences ≫= snd.

(** What the map of the sequences holds at every moment of a run: under a
    key, a list that is not empty, of sequences of the full length, with
    no more vowels than allowed, that begin with the key, which is not the
    invalid key. *)
Definition well_stored (kb : Keyboard) (sequences : KeySequences) : Prop :=
  ∀ key seqs, sequences !! key = Some seqs →
    seqs ≠ [] ∧ key ≠ invalidKey (keyboardLayout kb) ∧
    ∀ seq, seq ∈ seqs →
      String.length seq = sequenceLength kb ∧
      (CountVowels seq ≤ maxVowelCount kb)%nat ∧
      ∃ rest, seq = String key rest.

(** A partial sequence that begins with [key]. *)
Definition begins_with (key : ascii) (node : string * Coordinates) : Prop :=
  ∃ rest, node.1 = String key rest.

(** The sequences of full length below the partial sequence [seq] that
    ends at [pos], [d] keys away. *)
Definition completions (lay : CharVector2D) (km : ValidKeyMoves) (mv d : nat)
    (seq : string) (pos : Coordinates) : list string :=
  (λ s, seq +:+ labels lay s) <$> extensions lay km mv d seq pos.

(** The sequences still to be stored for a queue. *)
Definition pending_strings (lay : CharVector2D) (km : ValidKeyMoves) (mv L : nat)
    (q : Queue) : list string :=
  node ← q; completions lay km mv (L - String.length node.1) node.1 node.2.

(** A queue that holds sequences of one length followed by sequences one
    key longer. *)
Definition level_ordered (q : Queue) : Prop :=
  ∃ n q1 q2, q = q1 ++ q2 ∧
    Forall (λ node, String.length node.1 = n) q1 ∧
    Forall (λ node, String.length node.1 = S n) q2.

(** ** The count, in the words of the specification *)







(** * Proofs *)

(** ** The result monad and the loops *)

Ltac unfold_bind := unfold mbind, result_mbind, result_bind in *.

Lemma bind_Ok {A B : Type} (r : result A) (f : A → result B) (b : B) :
  (a ← r; f a) = Ok b ↔ ∃ a, r = Ok a ∧ f a = Ok b.
Proof.
  unfold_bind. split.
  - destruct r; try discriminate. eauto.
  - intros (a & -> & H). exact H.
Qed.

Lemma bind_of_Ok {A B : Type} (a : A) (f : A → result B) :
  (x ← Ok a; f x) = f a.
Proof. reflexivity. Qed.

Lemma for_each_app {A S : Type} (l1 l2 : list A) (body : A → S → result S) (s : S) :
  for_each (l1 ++ l2) body s = (s' ← for_each l1 body s; for_each l2 body s').
Proof.
  revert s. induction l1 as [|a l1 IH]; intros s; simpl; [reflexivity|].
  unfold_bind. destruct (body a s); auto.
Qed.

(** Two nested loops are one loop over the pairs of indices. *)
Lemma for_each_nested {S : Type} (l1 l2 : list Z) (body : Z → Z → S → result S) (s : S) :
  for_each l1 (λ i, for_each l2 (body i)) s =
  for_each (i ← l1; (λ j, (i, j)) <$> l2) (λ c, body c.1 c.2) s.
Proof.
  revert s. induction l1 as [|i l1 IH]; intros s; [reflexivity|].
  cbn [for_each mbind list_bind]. rewrite for_each_app.
  assert (Hin : ∀ s, for_each l2 (body i) s =
                     for_each ((λ j, (i, j)) <$> l2) (λ c, body c.1 c.2) s).
  { clear. induction l2 as [|j l2 IH2]; intros s; simpl; [reflexivity|].
    unfold_bind. destruct (body i j s); auto. }
  rewrite Hin. unfold_bind.
  destruct (for_each ((λ j, (i, j)) <$> l2) (λ c, body c.1 c.2) s); auto.
Qed.

(** ** Vectors and strings *)

Lemma index_Ok {A : Type} (v : list A) (i : Z) (a : A) :
  index v i = Ok a ↔ 0 ≤ i ∧ v !! Z.to_nat i = Some a.
Proof.
  unfold index. destruct (decide (0 ≤ i)) as [Hi|Hi].
  - destruct (v !! Z.to_nat i); split; intros H; try discriminate.
    + injection H as ->. auto.
    + destruct H as [_ [= ->]]. reflexivity.
    + destruct H as [_ [=]].
  - split; [discriminate|]. intros [? _]. contradiction.
Qed.

Lemma index_cases {A : Type} (v : list A) (i : Z) :
  is_Ok (index v i) ∨ index v i = Undefined.
Proof.
  unfold index, is_Ok. destruct (decide (0 ≤ i)); [|by right].
  destruct (v !! Z.to_nat i); eauto.
Qed.

Lemma at2_Ok (lay : CharVector2D) (x y : Z) (key : ascii) :
  at2 lay x y = Ok key ↔
  0 ≤ x ∧ 0 ≤ y ∧ ∃ row, lay !! Z.to_nat x = Some row ∧ row !! Z.to_nat y = Some key.
Proof.
  unfold at2. rewrite bind_Ok. split.
  - intros (row & Hr & Hk). apply index_Ok in Hr as [? ?]. apply index_Ok in Hk as [? ?].
    eauto 6.
  - intros (? & ? & row & ? & ?). exists row. rewrite !index_Ok. auto.
Qed.

Lemma at2_cases (lay : CharVector2D) (x y : Z) :
  is_Ok (at2 lay x y) ∨ at2 lay x y = Undefined.
Proof.
  unfold at2. destruct (index_cases lay x) as [[row ->]| ->]; [|by right].
  rewrite bind_of_Ok. apply index_cases.
Qed.

Lemma append_nil (t : string) : EmptyString +:+ t = t.
Proof. reflexivity. Qed.

Lemma append_cons (c : ascii) (s t : string) : String c s +:+ t = String c (s +:+ t).
Proof. reflexivity. Qed.

Lemma length_push_char (seq : string) (c : ascii) :
  String.length (push_char seq c) = S (String.length seq).
Proof.
  unfold push_char. induction seq as [|a seq IH]; [reflexivity|].
  rewrite append_cons. simpl. congruence.
Qed.

Lemma CountVowels_app (s t : string) :
  CountVowels (s +:+ t) = (CountVowels s + CountVowels t)%nat.
Proof.
  induction s as [|c s IH]; [reflexivity|].
  rewrite append_cons. simpl. rewrite IH. lia.
Qed.

Lemma CountVowels_push_char (seq : string) (c : ascii) :
  CountVowels (push_char seq c) = (CountVowels seq + if IsVowel c then 1 else 0)%nat.
Proof. unfold push_char. rewrite CountVowels_app. simpl. lia. Qed.


Lemma push_char_app (seq : string) (c : ascii) (t : string) :
  push_char seq c +:+ t = seq +:+ String c t.
Proof.
  unfold push_char. induction seq as [|a seq IH]; [reflexivity|].
  rewrite !append_cons. congruence.
Qed.

(** ** The map of the sequences *)

Lemma total_sequences_empty : total_sequences ∅ = 0%nat.
Proof. apply map_fold_empty. Qed.

Lemma total_sequences_push_back (sequences : KeySequences) (key : ascii) (seq : string) :
  total_sequences (push_back sequences key seq) = S (total_sequences sequences).
Proof.
  unfold total_sequences, push_back.
  destruct (sequences !! key) as [v|] eqn:Hk; simpl.
  - rewrite <- insert_delete_eq.
    rewrite map_fold_insert_L; [|intros; lia|apply lookup_delete_eq].
    rewrite (map_fold_delete_L _ _ key v sequences); [|intros; lia|done].
    rewrite length_app. simpl. lia.
  - rewrite map_fold_insert_L; [|intros; lia|done]. simpl. lia.
Qed.

Lemma to_int_add (a b : Z) : to_int (to_int a + b) = to_int (a + b).
Proof.
  unfold to_int. f_equal.
  replace ((a + 2 ^ 31) `mod` 2 ^ 32 - 2 ^ 31 + b + 2 ^ 31)
    with ((a + 2 ^ 31) `mod` 2 ^ 32 + b) by lia.
  rewrite Zplus_mod_idemp_l. f_equal. lia.
Qed.

Lemma to_int_small (z : Z) : - 2 ^ 31 ≤ z < 2 ^ 31 → to_int z = z.
Proof. intros H. unfold to_int. rewrite Z.mod_small; lia. Qed.

(** The [int] total printed is the number of sequences, reduced to 32 bits. *)
Lemma total_int (sequences : KeySequences) :
  map_fold (λ _ seqs total, to_int (total + Z.of_nat (length seqs))) 0 sequences =
  to_int (Z.of_nat (total_sequences sequences)).
Proof.
  unfold total_sequences. rewrite !map_fold_foldr.
  induction (map_to_list sequences) as [|[k v] l IH]; simpl; [reflexivity|].
  rewrite IH, to_int_add. f_equal. lia.
Qed.

(** ** One iteration of the breadth-first loop *)

Section Loop.

Context (kb : Keyboard).

Let lay := layout (keyboardLayout kb).
Let inv := invalidKey (keyboardLayout kb).
Let km := keyMoves kb.
Let L := sequenceLength kb.
Let mv := maxVowelCount kb.

Ltac fold_lay :=
  change (KeyboardLayout.GetLayout (keyboardLayout kb)) with lay in *.

Lemma push_moves_Ok seq x y moves q q' :
  push_moves kb seq x y moves q = Ok q' →
  ∃ cs, q' = q ++ cs ∧ pushed lay seq x y moves cs.
Proof.
  unfold push_moves, pushed. fold_lay. revert q.
  induction moves as [|move moves IH]; intros q H; simpl in H.
  - injection H as <-. exists []. rewrite app_nil_r. split; [done|constructor].
  - apply bind_Ok in H as (q1 & H1 & H2).
    apply bind_Ok in H1 as (c & Hc & [= <-]).
    apply IH in H2 as (cs & -> & Hcs).
    exists ((push_char seq c, (x + move.1, y + move.2)) :: cs).
    rewrite <- app_assoc. split; [done|]. constructor; eauto.
Qed.

Lemma push_moves_not_OutOfFuel seq x y moves q :
  push_moves kb seq x y moves q ≠ OutOfFuel.
Proof.
  unfold push_moves. fold_lay. revert q.
  induction moves as [|move moves IH]; intros q; simpl.
  - discriminate.
  - destruct (at2_cases lay (x + move.1) (y + move.2)) as [[c ->]| ->].
    + rewrite !bind_of_Ok. apply IH.
    + discriminate.
Qed.

Lemma push_moves_defined seq x y moves q :
  (∀ move, move ∈ moves → is_Ok (at2 lay (x + move.1) (y + move.2))) →
  is_Ok (push_moves kb seq x y moves q).
Proof.
  unfold push_moves. fold_lay. revert q.
  induction moves as [|move moves IH]; intros q Hm; simpl.
  - by exists q.
  - destruct (Hm move) as [c ->]; [by left|]. rewrite !bind_of_Ok.
    apply IH. intros. apply Hm. by right.
Qed.

(** The three cases of [bfs_body]. *)
Lemma bfs_body_pruned i j seq x y q sequences :
  (mv < CountVowels seq)%nat →
  bfs_body kb i j (seq, (x, y)) q sequences = Ok (q, sequences).
Proof.
  intros H. unfold bfs_body. apply Nat.ltb_lt in H. fold mv. by rewrite H.
Qed.

Lemma bfs_body_complete i j seq x y q sequences :
  (CountVowels seq ≤ mv)%nat → String.length seq = L →
  bfs_body kb i j (seq, (x, y)) q sequences =
  (key ← at2 lay i j; Ok (q, push_back sequences key seq)).
Proof.
  intros Hv Hl. unfold bfs_body. fold_lay. fold mv L km.
  apply Nat.ltb_ge in Hv. rewrite Hv. apply Nat.eqb_eq in Hl. by rewrite Hl.
Qed.

Lemma bfs_body_expand i j seq x y q sequences :
  (CountVowels seq ≤ mv)%nat → String.length seq ≠ L →
  bfs_body kb i j (seq, (x, y)) q sequences =
  (key ← at2 lay x y;
   moves ← GetValidMovesForAKey km key;
   q' ← push_moves kb seq x y moves q;
   Ok (q', sequences)).
Proof.
  intros Hv Hl. unfold bfs_body. fold_lay. fold mv L km.
  apply Nat.ltb_ge in Hv. rewrite Hv. apply Nat.eqb_neq in Hl. by rewrite Hl.
Qed.

Lemma bfs_body_not_OutOfFuel i j front q sequences :
  bfs_body kb i j front q sequences ≠ OutOfFuel.
Proof.
  destruct front as [seq [x y]].
  destruct (decide (mv < CountVowels seq)%nat) as [Hv|Hv].
  { by rewrite bfs_body_pruned. }
  destruct (decide (String.length seq = L)) as [Hl|Hl].
  - rewrite bfs_body_complete by lia.
    destruct (at2_cases lay i j) as [[c ->]| ->]; discriminate.
  - rewrite bfs_body_expand by lia.
    destruct (at2_cases lay x y) as [[c ->]| ->]; [|discriminate].
    rewrite bind_of_Ok. unfold GetValidMovesForAKey.
    destruct (km !! c) as [moves|]; [|discriminate].
    rewrite bind_of_Ok.
    pose proof (push_moves_not_OutOfFuel seq x y moves q) as Hp.
    destruct (push_moves kb seq x y moves q); try discriminate. congruence.
Qed.

(** What the pushed sequences contribute. *)
Lemma pending_app q1 q2 :
  pending lay km mv L (q1 ++ q2) = (pending lay km mv L q1 + pending lay km mv L q2)%nat.
Proof. unfold pending. induction q1 as [|n q1 IH]; simpl; [done|]. rewrite IH. lia. Qed.

Lemma queue_size_app q1 q2 :
  queue_size lay km mv L (q1 ++ q2) =
  (queue_size lay km mv L q1 + queue_size lay km mv L q2)%nat.
Proof. unfold queue_size. induction q1 as [|n q1 IH]; simpl; [done|]. rewrite IH. lia. Qed.

Lemma pending_pushed seq x y moves cs d :
  pushed lay seq x y moves cs → (L - String.length seq = S d)%nat →
  pending lay km mv L cs =
  length (move ← moves;
          let pos' := move_to (x, y) move in
          match at2 lay pos'.1 pos'.2 with
          | Ok c => (cons pos') <$> extensions lay km mv d (push_char seq c) pos'
          | _ => []
          end).
Proof.
  intros Hp Hd. induction Hp as [|move node moves cs (c & Hc & ->) _ IH]; [done|].
  cbn [mbind list_bind]. cbv zeta in IH |- *. rewrite length_app, <- IH.
  unfold move_to. cbn [fst snd]. rewrite Hc, length_fmap.
  unfold pending at 1. cbn [foldr fst snd]. rewrite length_push_char.
  replace (L - S (String.length seq))%nat with d by lia. done.
Qed.

Lemma queue_size_pushed seq x y moves cs d :
  pushed lay seq x y moves cs → (L - String.length seq = S d)%nat →
  queue_size lay km mv L cs =
  foldr (λ move n,
    let pos' := move_to (x, y) move in
    match at2 lay pos'.1 pos'.2 with
    | Ok c => (tree_size lay km mv d (push_char seq c) pos' + n)%nat
    | _ => n
    end) 0%nat moves.
Proof.
  intros Hp Hd. induction Hp as [|move node moves cs (c & Hc & ->) _ IH]; [done|].
  cbn [foldr]. cbv zeta in IH |- *. rewrite <- IH.
  unfold move_to. cbn [fst snd]. rewrite Hc.
  unfold queue_size at 1. cbn [foldr fst snd]. rewrite length_push_char.
  replace (L - S (String.length seq))%nat with d by lia. done.
Qed.

Lemma pushed_short seq x y moves cs :
  pushed lay seq x y moves cs → (String.length seq < L)%nat → Forall (short L) cs.
Proof.
  intros Hp Hl. induction Hp as [|move node moves cs (c & Hc & ->) _ IH];
    constructor; [|done].
  unfold short. cbn [fst]. rewrite length_push_char. lia.
Qed.

(** An iteration that returns keeps the sum of what is counted and what
    is left to count, and takes one off the size of the queue. *)
Lemma bfs_body_Ok i j seq x y q sequences q' sequences' :
  (String.length seq ≤ L)%nat → Forall (short L) q →
  bfs_body kb i j (seq, (x, y)) q sequences = Ok (q', sequences') →
  (total_sequences sequences' + pending lay km mv L q' =
     total_sequences sequences + pending lay km mv L ((seq, (x, y)) :: q))%nat ∧
  S (queue_size lay km mv L q') = queue_size lay km mv L ((seq, (x, y)) :: q) ∧
  Forall (short L) q'.
Proof.
  intros Hlen Hq H.
  unfold pending at 2. unfold queue_size at 2. cbn [foldr fst snd].
  fold (pending lay km mv L q). fold (queue_size lay km mv L q).
  destruct (decide (mv < CountVowels seq)%nat) as [Hv|Hv].
  { rewrite bfs_body_pruned in H by done. injection H as <- <-.
    apply Nat.ltb_lt in Hv.
    destruct (L - String.length seq)%nat; simpl; rewrite Hv; simpl; auto with lia. }
  destruct (decide (String.length seq = L)) as [Hl|Hl].
  - rewrite bfs_body_complete in H by lia.
    apply bind_Ok in H as (key & _ & [= <- <-]).
    rewrite total_sequences_push_back.
    replace (L - String.length seq)%nat with 0%nat by lia.
    apply Nat.nlt_ge, Nat.ltb_ge in Hv. simpl. rewrite Hv. simpl. auto with lia.
  - rewrite bfs_body_expand in H by lia.
    apply bind_Ok in H as (key & Hkey & H).
    apply bind_Ok in H as (moves & Hmoves & H).
    apply bind_Ok in H as (q1 & Hpush & [= <- <-]).
    apply push_moves_Ok in Hpush as (cs & -> & Hcs).
    unfold GetValidMovesForAKey in Hmoves.
    destruct (km !! key) as [moves'|] eqn:Hkm; [|discriminate].
    injection Hmoves as ->.
    destruct (L - String.length seq)%nat as [|d] eqn:Hd; [lia|].
    rewrite pending_app, queue_size_app.
    rewrite (pending_pushed _ _ _ _ _ d Hcs Hd), (queue_size_pushed _ _ _ _ _ d Hcs Hd).
    apply Nat.nlt_ge, Nat.ltb_ge in Hv.
    cbn [extensions tree_size fst snd]. rewrite Hv, Hkey, Hkm.
    split; [lia|]. split; [lia|].
    apply Forall_app. split; [done|]. eapply pushed_short; [done|lia].
Qed.

Lemma tree_size_pos d seq pos : (0 < tree_size lay km mv d seq pos)%nat.
Proof.
  destruct d; simpl; destruct (mv <? CountVowels seq)%nat; try lia.
  destruct (at2 lay pos.1 pos.2); try lia. destruct (km !! a); lia.
Qed.

(** ** The [while] loop *)

(** With as much fuel as the size of the queue the loop does not run
    out of fuel. *)
Lemma bfs_while_terminates fuel i j q sequences :
  Forall (short L) q → (queue_size lay km mv L q ≤ fuel)%nat →
  bfs_while kb fuel i j q sequences ≠ OutOfFuel.
Proof.
  revert q sequences. induction fuel as [|fuel IH]; intros q sequences Hq Hf.
  - destruct q as [|[seq [x y]] q]; [discriminate|].
    unfold queue_size in Hf. cbn [foldr fst snd] in Hf.
    pose proof (tree_size_pos (L - String.length seq) seq (x, y)). lia.
  - destruct q as [|[seq [x y]] q]; [discriminate|].
    cbn [bfs_while]. apply Forall_cons in Hq as [Hs Hq].
    destruct (bfs_body kb i j (seq, (x, y)) q sequences) as [[q' s']| | |] eqn:Hb;
      try discriminate.
    + rewrite bind_of_Ok. cbn [fst snd].
      apply bfs_body_Ok in Hb as (_ & Hsize & Hq'); [|done..].
      apply IH; [done|lia].
    + by apply bfs_body_not_OutOfFuel in Hb.
Qed.

(** A loop that returns has counted what was left to count. *)
Lemma bfs_while_Ok fuel i j q sequences sequences' :
  Forall (short L) q → bfs_while kb fuel i j q sequences = Ok sequences' →
  total_sequences sequences' =
  (total_sequences sequences + pending lay km mv L q)%nat.
Proof.
  revert q sequences. induction fuel as [|fuel IH]; intros q sequences Hq H.
  - destruct q as [|front q]; [|discriminate]. injection H as <-. simpl. lia.
  - destruct q as [|[seq [x y]] q].
    { injection H as <-. simpl. lia. }
    cbn [bfs_while] in H. apply bind_Ok in H as ([q' s'] & Hb & H).
    apply Forall_cons in Hq as [Hs Hq].
    apply bfs_body_Ok in Hb as (Hcount & _ & Hq'); [|done..].
    apply IH in H; [|done]. cbn [fst snd] in H. lia.
Qed.

(** ** No failing lookup on a closed table *)

Lemma pushed_on_key seq x y key moves cs :
  closed_table lay inv km → at2 lay x y = Ok key → km !! key = Some moves →
  pushed lay seq x y moves cs → Forall (on_key lay km) cs.
Proof.
  intros (_ & _ & Hclosed) Hkey Hkm Hp.
  destruct (Hclosed (x, y) key moves Hkey Hkm) as [_ Hmoves]. clear Hclosed Hkm.
  induction Hp as [|move node moves cs (c & Hc & ->) _ IH]; constructor.
  - destruct (Hmoves move) as (key' & Hk' & Hsome); [by left|].
    exists key'. split; [exact Hk'|exact Hsome].
  - apply IH. intros. apply Hmoves. by right.
Qed.

Lemma bfs_body_safe i j front q sequences :
  closed_table lay inv km → is_Ok (at2 lay i j) →
  on_key lay km front → Forall (on_key lay km) q →
  ∃ q' sequences', bfs_body kb i j front q sequences = Ok (q', sequences') ∧
                   Forall (on_key lay km) q'.
Proof.
  intros Hclosed [start Hstart] (key & Hkey & [moves Hkm]) Hq.
  destruct front as [seq [x y]]. cbn [fst snd] in Hkey.
  destruct (decide (mv < CountVowels seq)%nat) as [Hv|Hv].
  { rewrite bfs_body_pruned by done. eauto. }
  destruct (decide (String.length seq = L)) as [Hl|Hl].
  - rewrite bfs_body_complete by lia. rewrite Hstart, bind_of_Ok. eauto.
  - rewrite bfs_body_expand by lia. rewrite Hkey, bind_of_Ok.
    unfold GetValidMovesForAKey. rewrite Hkm, bind_of_Ok.
    destruct (push_moves_defined seq x y moves q) as [q1 Hq1].
    { intros move Hmove. destruct Hclosed as (_ & _ & Hclosed).
      destruct (Hclosed (x, y) key moves Hkey Hkm) as [_ Hmoves].
      destruct (Hmoves move Hmove) as (key' & Hk' & _). by exists key'. }
    rewrite Hq1, bind_of_Ok. do 2 eexists. split; [reflexivity|].
    apply push_moves_Ok in Hq1 as (cs & -> & Hcs).
    apply Forall_app. split; [done|]. by eapply pushed_on_key.
Qed.

Lemma bfs_while_safe fuel i j q sequences :
  closed_table lay inv km → is_Ok (at2 lay i j) → Forall (on_key lay km) q →
  bfs_while kb fuel i j q sequences = OutOfFuel ∨
  is_Ok (bfs_while kb fuel i j q sequences).
Proof.
  intros Hclosed Hstart. revert q sequences.
  induction fuel as [|fuel IH]; intros q sequences Hq.
  - destruct q; [right; by eexists|by left].
  - destruct q as [|front q]; [right; by eexists|].
    cbn [bfs_while]. apply Forall_cons in Hq as [Hfront Hq].
    destruct (bfs_body_safe i j front q sequences) as (q' & s' & -> & Hq'); [done..|].
    rewrite bind_of_Ok. by apply IH.
Qed.

(** ** The loops over the starting cells *)

Lemma GenerateSequences_cells fuel :
  GenerateSequences kb fuel = for_each (cells lay) (from_cell kb fuel) ∅.
Proof.
  unfold GenerateSequences. rewrite for_each_nested.
  unfold cells, rows, cols, KeyboardLayout.GetRows, KeyboardLayout.GetCols. fold lay.
  destruct lay; reflexivity.
Qed.

Lemma from_cell_terminates fuel c sequences :
  (1 ≤ L)%nat → (fuel_from lay km mv L c ≤ fuel)%nat →
  from_cell kb fuel c sequences ≠ OutOfFuel.
Proof.
  intros HL Hf. unfold from_cell, fuel_from in *. cbv zeta in *. fold lay inv in Hf |- *.
  destruct (at2_cases lay c.1 c.2) as [[key Hkey]|Hkey]; rewrite Hkey in *; [|discriminate].
  rewrite bind_of_Ok. destruct (negb (Ascii.eqb key inv)); [|discriminate].
  apply bfs_while_terminates.
  - constructor; [|constructor]. unfold short. simpl. lia.
  - unfold queue_size. cbn [foldr fst snd String.length].
    destruct c as [i j]. cbn [fst snd] in *. lia.
Qed.

Lemma from_cell_Ok fuel c sequences sequences' :
  (1 ≤ L)%nat → from_cell kb fuel c sequences = Ok sequences' →
  total_sequences sequences' =
  (total_sequences sequences + length (walks_from lay inv km mv L c))%nat.
Proof.
  intros HL H. unfold from_cell, walks_from in *. cbv zeta in *. fold lay inv in H |- *.
  apply bind_Ok in H as (key & Hkey & H). rewrite Hkey.
  destruct (negb (Ascii.eqb key inv)).
  - apply bfs_while_Ok in H.
    + rewrite H, length_fmap. unfold pending. cbn [foldr fst snd String.length].
      destruct c as [i j]. cbn [fst snd]. lia.
    + constructor; [|constructor]. unfold short. simpl. lia.
  - injection H as <-. simpl. lia.
Qed.

Lemma from_cell_safe fuel c sequences :
  closed_table lay inv km → c ∈ cells lay →
  from_cell kb fuel c sequences = OutOfFuel ∨ is_Ok (from_cell kb fuel c sequences).
Proof.
  intros Hclosed Hc. unfold from_cell. fold lay inv. cbv zeta.
  destruct Hclosed as (Hstart & Hdef & Hmoves).
  destruct (Hdef c Hc) as [key Hkey]. rewrite Hkey, bind_of_Ok.
  destruct (Ascii.eqb key inv) eqn:Heq; simpl; [right; by eexists|].
  apply Ascii.eqb_neq in Heq. apply bfs_while_safe.
  - by split.
  - by exists key.
  - constructor; [|constructor]. exists key. split; [done|]. by eapply Hstart.
Qed.

Lemma cells_terminate fuel l sequences :
  (1 ≤ L)%nat → (foldr (λ c n, fuel_from lay km mv L c + n)%nat 0%nat l ≤ fuel)%nat →
  for_each l (from_cell kb fuel) sequences ≠ OutOfFuel.
Proof.
  intros HL. revert sequences. induction l as [|c l IH]; intros sequences Hf.
  - discriminate.
  - cbn [for_each foldr] in *.
    pose proof (from_cell_terminates fuel c sequences HL) as Hc.
    destruct (from_cell kb fuel c sequences); try discriminate.
    + rewrite bind_of_Ok. apply IH. lia.
    + exfalso. apply Hc; [lia|done].
Qed.

Lemma cells_Ok fuel l sequences sequences' :
  (1 ≤ L)%nat → for_each l (from_cell kb fuel) sequences = Ok sequences' →
  total_sequences sequences' =
  (total_sequences sequences + length (c ← l; walks_from lay inv km mv L c))%nat.
Proof.
  intros HL. revert sequences. induction l as [|c l IH]; intros sequences H.
  - injection H as <-. simpl. lia.
  - cbn [for_each] in H. apply bind_Ok in H as (s1 & H1 & H2).
    apply from_cell_Ok in H1; [|done]. apply IH in H2.
    cbn [mbind list_bind]. rewrite length_app. lia.
Qed.

Lemma cells_safe fuel l sequences :
  closed_table lay inv km → l ⊆ cells lay →
  for_each l (from_cell kb fuel) sequences = OutOfFuel ∨
  is_Ok (for_each l (from_cell kb fuel) sequences).
Proof.
  intros Hclosed. revert sequences. induction l as [|c l IH]; intros sequences Hl.
  - right. by eexists.
  - cbn [for_each].
    destruct (from_cell_safe fuel c sequences Hclosed) as [->|[s1 ->]].
    + apply Hl. by left.
    + by left.
    + rewrite bind_of_Ok. apply IH. intros c' Hc'. apply Hl. by right.
Qed.

(** With enough fuel the enumeration does not stop for lack of fuel;
    when it returns, it has counted the walks; and on a closed table it
    returns. *)
Lemma GenerateSequences_terminates fuel :
  (1 ≤ L)%nat → (enough_fuel lay km mv L ≤ fuel)%nat →
  GenerateSequences kb fuel ≠ OutOfFuel.
Proof. intros. rewrite GenerateSequences_cells. by apply cells_terminate. Qed.

Lemma GenerateSequences_Ok fuel sequences :
  (1 ≤ L)%nat → GenerateSequences kb fuel = Ok sequences →
  total_sequences sequences = length (all_walks lay inv km mv L).
Proof.
  intros HL H. rewrite GenerateSequences_cells in H.
  apply cells_Ok in H; [|done]. by rewrite total_sequences_empty in H.
Qed.

Lemma GenerateSequences_closed fuel :
  closed_table lay inv km → (1 ≤ L)%nat → (enough_fuel lay km mv L ≤ fuel)%nat →
  ∃ sequences, GenerateSequences kb fuel = Ok sequences ∧
               total_sequences sequences = length (all_walks lay inv km mv L).
Proof.
  intros Hclosed HL Hf.
  pose proof (GenerateSequences_terminates fuel HL Hf) as Hterm.
  destruct (cells_safe fuel (cells lay) ∅ Hclosed) as [H|[sequences H]]; [done|..].
  - by rewrite <- GenerateSequences_cells in H.
  - rewrite <- GenerateSequences_cells in H. exists sequences.
    split; [done|]. by eapply GenerateSequences_Ok.
Qed.

End Loop.

(** ** The knight *)

Lemma knight_shape_true (moveX moveY : Z) :
  ((1 =? Z.abs moveX) && (2 =? Z.abs moveY)) || ((2 =? Z.abs moveX) && (1 =? Z.abs moveY))
    = true ↔ knight_shape moveX moveY.
Proof.
  unfold knight_shape. rewrite orb_true_iff, !andb_true_iff, !Z.eqb_eq. lia.
Qed.

(** A move the knight accepts leads to a valid cell inside the layout. *)
Lemma Knight_valid_move_lands (x y moveX moveY : Z) (inv : ascii) (lay : CharVector2D) :
  @IsValidMove Knight x y moveX moveY inv lay = Ok true →
  (0 ≤ x + moveX < Z.of_nat (rows lay)) ∧
  (0 ≤ y + moveY < Z.of_nat (cols lay)) ∧
  ∃ key, at2 lay (x + moveX) (y + moveY) = Ok key ∧ key ≠ inv.
Proof.
  cbn [IsValidMove Knight]. unfold Knight.IsValidMove.
  destruct lay as [|row0 lay]; [discriminate|].
  change (index (row0 :: lay) 0) with (Ok row0). rewrite bind_of_Ok.
  unfold rows. cbn [cols]. set (l := row0 :: lay).
  destruct ((0 <=? x + moveX) && (x + moveX <? Z.of_nat (length l)) &&
            (0 <=? y + moveY) && (y + moveY <? Z.of_nat (length row0))) eqn:Hb;
    [|discriminate].
  rewrite !andb_true_iff in Hb. destruct Hb as [[[H1 H2] H3] H4].
  intros (key & Hkey & Hok)%bind_Ok. injection Hok as Hok.
  apply andb_true_iff in Hok as [Hne _]. apply negb_true_iff, Ascii.eqb_neq in Hne.
  split; [lia|]. split; [lia|]. by exists key.
Qed.

(** C6: [IsValidMove] of the knight returns [true] exactly when the
    destination is inside the layout, its key is not the invalid key, and
    the offset has the shape of a knight move. *)
Theorem IsValidMove_true_iff (x y moveX moveY : Z) (inv : ascii) (lay : CharVector2D) :
  @IsValidMove Knight x y moveX moveY inv lay = Ok true ↔
  (0 ≤ x + moveX < Z.of_nat (rows lay)) ∧
  (0 ≤ y + moveY < Z.of_nat (cols lay)) ∧
  (∃ key, at2 lay (x + moveX) (y + moveY) = Ok key ∧ key ≠ inv) ∧
  knight_shape moveX moveY.
Proof.
  cbn [IsValidMove Knight]. unfold Knight.IsValidMove.
  destruct lay as [|row0 lay].
  { cbn. split; [discriminate|]. intros [? _]. lia. }
  change (index (row0 :: lay) 0) with (Ok row0). rewrite bind_of_Ok.
  unfold rows. cbn [cols]. set (l := row0 :: lay).
  set (shape := ((1 =? Z.abs moveX) && (2 =? Z.abs moveY)) ||
                ((2 =? Z.abs moveX) && (1 =? Z.abs moveY))).
  pose proof (knight_shape_true moveX moveY) as Hshape. fold shape in Hshape.
  destruct ((0 <=? x + moveX) && (x + moveX <? Z.of_nat (length l)) &&
            (0 <=? y + moveY) && (y + moveY <? Z.of_nat (length row0))) eqn:Hb.
  - rewrite !andb_true_iff in Hb. destruct Hb as [[[H1 H2] H3] H4].
    rewrite bind_Ok. split.
    + intros (key & Hkey & Hok). injection Hok as Hok.
      apply andb_true_iff in Hok as [Hne Hs].
      apply negb_true_iff, Ascii.eqb_neq in Hne.
      split; [lia|]. split; [lia|]. split; [by exists key|by apply Hshape].
    + intros (_ & _ & (key & Hkey & Hne) & Hs). exists key. split; [done|].
      f_equal. apply andb_true_iff. split; [|by apply Hshape].
      by apply negb_true_iff, Ascii.eqb_neq.
  - split; [discriminate|]. intros (? & ? & _).
    rewrite !andb_false_iff in Hb. lia.
Qed.


(** ** The constructors *)

Lemma KeyboardLayout_new_cases (inv : ascii) (lay : CharVector2D) :
  KeyboardLayout.new inv lay =
    Throw (invalid_argument "Layout dimensions must be non-zero.") ∨
  KeyboardLayout.new inv lay = Ok {| invalidKey := inv; layout := lay |}.
Proof. destruct lay as [|[|key row0] lay]; auto. Qed.

(** C3, as the code has it: the constructor of the layout throws exactly
    when there is no row or the first row has no key; every other table
    of keys, with rows of unequal length too, is accepted as it is. *)
Theorem KeyboardLayout_new_throws_iff (inv : ascii) (lay : CharVector2D) :
  (throws (KeyboardLayout.new inv lay) ↔ lay = [] ∨ head lay = Some []) ∧
  (KeyboardLayout.new inv lay =
     Throw (invalid_argument "Layout dimensions must be non-zero.") ∨
   KeyboardLayout.new inv lay = Ok {| invalidKey := inv; layout := lay |}).
Proof.
  unfold KeyboardLayout.new, throws.
  destruct lay as [|[|key row0] lay]; simpl.
  - split; [|by left]. split; [by left|]. intros _. by eexists.
  - split; [|by left]. split; [by right|]. intros _. by eexists.
  - split; [|by right]. split.
    + intros [e [=]].
    + intros [[=]|[=]].
Qed.

(** C3, as stated, fails: a table with rows of unequal length is
    accepted. *)
Lemma KeyboardLayout_new_unequal_rows :
  ¬ (throws (KeyboardLayout.new NUL [["A"; "B"]; ["C"]]%char) ↔
     rejected_layout [["A"; "B"]; ["C"]]%char).
Proof.
  intros [_ H]. destruct H as [e He]; [|discriminate He].
  right. right. exists ["A"; "B"]%char, ["C"]%char.
  split; [by left|]. split; [right; by left|]. simpl. lia.
Qed.

(** C8: with a sequence length of zero the constructor of the keyboard
    throws before the table of moves is built, and the run ends with
    the failure status without writing to the standard output. *)
Theorem zero_sequenceLength_rejected (mv : nat) (inv : ascii) (lay : CharVector2D)
    (kl : KeyboardLayout) (piece : ChessPiece) (fuel : nat) (io : Streams) :
  (KeyboardCtor.new 0 mv kl piece io).2 =
    Throw (invalid_argument "Sequence length must be non-zero.") ∧
  (main_with 0 mv inv lay fuel io).2 = Ok EXIT_FAILURE ∧
  EXIT_FAILURE ≠ 0 ∧
  cout (main_with 0 mv inv lay fuel io).1 = cout io.
Proof.
  split; [reflexivity|]. split; [|split; [done|]].
  - unfold main_with. destruct (KeyboardLayout_new_cases inv lay) as [-> | ->]; reflexivity.
  - unfold main_with. destruct (KeyboardLayout_new_cases inv lay) as [-> | ->]; reflexivity.
Qed.

(** ** The table of the valid moves *)

Lemma elem_of_cells (lay : CharVector2D) (c : Coordinates) :
  c ∈ cells lay ↔
  (0 ≤ c.1 < Z.of_nat (rows lay)) ∧ (0 ≤ c.2 < Z.of_nat (cols lay)).
Proof.
  unfold cells, range. rewrite list_elem_of_bind. split.
  - intros (i & Hc & Hi). apply list_elem_of_fmap in Hc as (j & -> & Hj).
    apply elem_of_seqZ in Hi, Hj. simpl. lia.
  - intros [Hi Hj]. exists c.1. split.
    + apply list_elem_of_fmap. exists c.2. split; [by destruct c|].
      apply elem_of_seqZ. lia.
    + apply elem_of_seqZ. lia.
Qed.

Lemma at2_rectangular (lay : CharVector2D) (x y : Z) :
  rectangular lay → 0 ≤ x < Z.of_nat (rows lay) → 0 ≤ y < Z.of_nat (cols lay) →
  is_Ok (at2 lay x y).
Proof.
  intros (_ & _ & Hrows) Hx Hy. unfold rows in Hx.
  destruct (lookup_lt_is_Some_2 lay (Z.to_nat x)) as [row Hrow]; [lia|].
  pose proof (proj1 (Forall_lookup _ _) Hrows _ _ Hrow) as Hlen. simpl in Hlen.
  destruct (lookup_lt_is_Some_2 row (Z.to_nat y)) as [key Hkey]; [lia|].
  exists key. apply at2_Ok. eauto 6 with lia.
Qed.

Lemma SetValidMovesForAllKeys_cells (kl : KeyboardLayout) (piece : ChessPiece)
    (km0 : ValidKeyMoves) :
  SetValidMovesForAllKeys kl piece km0 =
  for_each (cells (layout kl)) (table_cell piece (invalidKey kl) (layout kl)) km0.
Proof.
  unfold SetValidMovesForAllKeys. rewrite for_each_nested.
  unfold cells, rows, cols, KeyboardLayout.GetRows, KeyboardLayout.GetCols,
    KeyboardLayout.GetLayout, KeyboardLayout.GetInvalidKey.
  destruct (layout kl); reflexivity.
Qed.

Lemma map_insert_lookup {V : Type} (m : gmap ascii V) (key key' : ascii) (v : V) :
  map_insert m key v !! key' =
  match m !! key' with
  | Some v' => Some v'
  | None => if decide (key = key') then Some v else None
  end.
Proof.
  unfold map_insert. destruct (m !! key) as [v0|] eqn:Hk.
  - destruct (m !! key') eqn:Hk'; [done|]. case_decide; congruence.
  - rewrite lookup_insert. case_decide; subst.
    + by rewrite Hk.
    + by destruct (m !! key').
Qed.

(** An existing entry is not overwritten. *)
Lemma map_insert_kept {V : Type} (m : gmap ascii V) (key : ascii) (v v' : V) :
  m !! key = Some v → map_insert m key v' = m.
Proof. intros H. unfold map_insert. by rewrite H. Qed.

(** The entries of the table after the loops over the cells [l]. *)
Lemma table_lookup (piece : ChessPiece) (inv : ascii) (lay : CharVector2D)
    (l : list Coordinates) (km0 km : ValidKeyMoves) (key : ascii) :
  for_each l (table_cell piece inv lay) km0 = Ok km →
  km !! key =
  match km0 !! key with
  | Some moves => Some moves
  | None =>
      if decide (key = inv) then None
      else
        match first_cell lay key l with
        | Some c =>
            match valid_moves_at piece inv lay c.1 c.2 with
            | Ok moves => Some moves
            | _ => None
            end
        | None => None
        end
  end.
Proof.
  revert km0. induction l as [|c l IH]; intros km0 H.
  - injection H as <-. simpl. destruct (km0 !! key); [done|]. by case_decide.
  - cbn [for_each] in H. apply bind_Ok in H as (km1 & Hc & H).
    rewrite (IH _ H). clear IH H. unfold table_cell in Hc.
    apply bind_Ok in Hc as (k & Hk & Hc). cbn [first_cell]. rewrite Hk.
    destruct (Ascii.eqb k inv) eqn:Hinv; simpl in Hc.
    + injection Hc as <-. apply Ascii.eqb_eq in Hinv as ->.
      destruct (km0 !! key); [done|]. case_decide as Hkey; [done|].
      apply not_eq_sym, Ascii.eqb_neq in Hkey. by rewrite Hkey.
    + apply bind_Ok in Hc as (moves & Hmoves & [= <-]).
      rewrite map_insert_lookup. destruct (km0 !! key) eqn:Hkm0; [done|].
      case_decide as Hk'.
      * subst key. rewrite Ascii.eqb_refl, Hmoves.
        case_decide as Hkey; [|done]. subst. by rewrite Ascii.eqb_refl in Hinv.
      * apply Ascii.eqb_neq in Hk'. by rewrite Hk'.
Qed.

Lemma first_cell_Some (lay : CharVector2D) (key : ascii) (l : list Coordinates)
    (c : Coordinates) :
  first_cell lay key l = Some c → c ∈ l ∧ at2 lay c.1 c.2 = Ok key.
Proof.
  induction l as [|c' l IH]; [discriminate|]. cbn [first_cell]. intros H.
  destruct (at2 lay c'.1 c'.2) as [k| | |] eqn:Hk;
    try (apply IH in H as [? ?]; split; [by right|done]).
  destruct (Ascii.eqb k key) eqn:Heq.
  - injection H as <-. apply Ascii.eqb_eq in Heq as ->. split; [by left|done].
  - apply IH in H as [? ?]. split; [by right|done].
 Qed.

Lemma first_cell_is_Some (lay : CharVector2D) (key : ascii) (l : list Coordinates)
    (c : Coordinates) :
  c ∈ l → at2 lay c.1 c.2 = Ok key → is_Some (first_cell lay key l).
Proof.
  intros Hc Hkey. induction l as [|c' l IH]; [by apply elem_of_nil in Hc|].
  cbn [first_cell]. apply elem_of_cons in Hc as [<-|Hc].
  - rewrite Hkey, Ascii.eqb_refl. by eexists.
  - destruct (at2 lay c'.1 c'.2) as [k| | |]; auto.
    destruct (Ascii.eqb k key); [by eexists|auto].
Qed.

Lemma table_moves_defined (piece : ChessPiece) (inv : ascii) (lay : CharVector2D)
    (l : list Coordinates) (km0 km : ValidKeyMoves) (c : Coordinates) (key : ascii) :
  for_each l (table_cell piece inv lay) km0 = Ok km →
  c ∈ l → at2 lay c.1 c.2 = Ok key → key ≠ inv →
  is_Ok (valid_moves_at piece inv lay c.1 c.2).
Proof.
  revert km0. induction l as [|c' l IH]; intros km0 H Hc Hkey Hne.
  - by apply elem_of_nil in Hc.
  - cbn [for_each] in H. apply bind_Ok in H as (km1 & Hc' & H).
    apply elem_of_cons in Hc as [->|Hc]; [|by eapply IH].
    unfold table_cell in Hc'. rewrite Hkey, bind_of_Ok in Hc'.
    apply Ascii.eqb_neq in Hne. rewrite Hne in Hc'. simpl in Hc'.
    apply bind_Ok in Hc' as (moves & Hmoves & _). by exists moves.
Qed.

(** The moves kept for a cell are moves of the piece, in their order,
    and each of them is valid from the cell. *)
Lemma valid_moves_at_Ok (piece : ChessPiece) (inv : ascii) (lay : CharVector2D)
    (i j : Z) (moves : list Coordinates) :
  valid_moves_at piece inv lay i j = Ok moves →
  moves `sublist_of` (@GetMoves piece) ∧
  ∀ move, move ∈ moves → @IsValidMove piece i j move.1 move.2 inv lay = Ok true.
Proof.
  unfold valid_moves_at. intros H.
  enough (Hgen : ∀ gm acc res,
    for_each gm (λ move moves,
      ok ← @IsValidMove piece i j move.1 move.2 inv lay;
      Ok (if ok : bool then moves ++ [(move.1, move.2)] else moves)) acc = Ok res →
    ∃ sel, res = acc ++ sel ∧ sel `sublist_of` gm ∧
           ∀ move, move ∈ sel → @IsValidMove piece i j move.1 move.2 inv lay = Ok true).
  { apply Hgen in H as (sel & -> & ? & ?). done. }
  clear. induction gm as [|move gm IH]; intros acc res H.
  - injection H as <-. exists []. rewrite app_nil_r. split; [done|].
    split; [constructor|]. intros ? []%elem_of_nil.
  - cbn [for_each] in H. apply bind_Ok in H as (acc1 & H1 & H).
    apply bind_Ok in H1 as (ok & Hok & [= <-]).
    apply IH in H as (sel & -> & Hsub & Hsel). destruct ok.
    + exists (move :: sel). rewrite <- app_assoc. destruct move as [mx my].
      split; [done|]. split; [by constructor|].
      intros m [->|Hm]%elem_of_cons; auto.
    + exists sel. split; [done|]. split; [by constructor|done].
Qed.

Lemma valid_moves_at_defined (piece : ChessPiece) (inv : ascii) (lay : CharVector2D)
    (i j : Z) :
  (∀ move, is_Ok (@IsValidMove piece i j move.1 move.2 inv lay)) →
  is_Ok (valid_moves_at piece inv lay i j).
Proof.
  intros Hok. unfold valid_moves_at.
  enough (Hgen : ∀ gm acc, is_Ok (for_each gm (λ move moves,
      ok ← @IsValidMove piece i j move.1 move.2 inv lay;
      Ok (if ok : bool then moves ++ [(move.1, move.2)] else moves)) acc)) by apply Hgen.
  induction gm as [|move gm IH]; intros acc; simpl.
  - by eexists.
  - destruct (Hok move) as [b ->]. rewrite !bind_of_Ok. apply IH.
Qed.

Lemma Knight_IsValidMove_defined (x y moveX moveY : Z) (inv : ascii)
    (lay : CharVector2D) :
  rectangular lay → is_Ok (@IsValidMove Knight x y moveX moveY inv lay).
Proof.
  intros Hrect. cbn [IsValidMove Knight]. unfold Knight.IsValidMove.
  destruct lay as [|row0 lay].
  { destruct Hrect as [Hrows _]. simpl in Hrows. lia. }
  change (index (row0 :: lay) 0) with (Ok row0). rewrite bind_of_Ok.
  set (l := row0 :: lay) in *.
  destruct ((0 <=? x + moveX) && (x + moveX <? Z.of_nat (length l)) &&
            (0 <=? y + moveY) && (y + moveY <? Z.of_nat (length row0))) eqn:Hb.
  - rewrite !andb_true_iff in Hb. destruct Hb as [[[H1 H2] H3] H4].
    destruct (at2_rectangular l (x + moveX) (y + moveY) Hrect) as [key ->].
    + unfold rows. lia.
    + subst l. cbn [cols]. lia.
    + rewrite bind_of_Ok. by eexists.
  - by eexists.
Qed.

Lemma Knight_GetMoves_NoDup : NoDup (@GetMoves Knight).
Proof. apply (bool_decide_unpack (NoDup Knight.GetMoves)). by vm_compute. Qed.

Lemma table_cell_defined (inv : ascii) (lay : CharVector2D) (c : Coordinates)
    (km : ValidKeyMoves) :
  rectangular lay → c ∈ cells lay → is_Ok (table_cell Knight inv lay c km).
Proof.
  intros Hrect Hc. unfold table_cell. apply elem_of_cells in Hc as [Hx Hy].
  destruct (at2_rectangular lay c.1 c.2 Hrect Hx Hy) as [key ->].
  rewrite bind_of_Ok. destruct (negb (Ascii.eqb key inv)); [|by eexists].
  destruct (valid_moves_at_defined Knight inv lay c.1 c.2) as [moves ->].
  { intros. by apply Knight_IsValidMove_defined. }
  rewrite bind_of_Ok. by eexists.
Qed.

(** On a rectangular layout the table of the knight is built. *)
Lemma SetValidMovesForAllKeys_defined (inv : ascii) (lay : CharVector2D)
    (km0 : ValidKeyMoves) :
  rectangular lay →
  is_Ok (SetValidMovesForAllKeys {| invalidKey := inv; layout := lay |} Knight km0).
Proof.
  intros Hrect. rewrite SetValidMovesForAllKeys_cells. cbn [layout invalidKey].
  assert (Hl : ∀ c, c ∈ cells lay → c ∈ cells lay) by done.
  revert km0 Hl. generalize (cells lay) at 1 3.
  induction l as [|c l IH]; intros km0 Hl; [by eexists|].
  cbn [for_each].
  destruct (table_cell_defined inv lay c km0 Hrect) as [km1 ->]; [apply Hl; by left|].
  rewrite bind_of_Ok. apply IH. intros. apply Hl. by right.
Qed.

(** ** Layouts without a repeated key *)

Lemma NoDup_filter_lookup (P : ascii → Prop) `{!∀ k, Decision (P k)}
    (row : list ascii) (b b' : nat) (key : ascii) :
  NoDup (filter P row) → row !! b = Some key → row !! b' = Some key → P key → b = b'.
Proof.
  revert b b'. induction row as [|k row IH]; intros b b' Hnd Hb Hb' HP.
  { by rewrite lookup_nil in Hb. }
  rewrite filter_cons in Hnd.
  assert (Hin : ∀ n, row !! n = Some key → key ∈ filter P row).
  { intros n Hn. apply list_elem_of_filter. split; [done|].
    by eapply list_elem_of_lookup_2. }
  destruct b as [|b], b' as [|b']; simpl in Hb, Hb'.
  - done.
  - injection Hb as ->. rewrite decide_True in Hnd by done.
    apply NoDup_cons in Hnd as [Hnot _]. destruct Hnot. by eapply Hin.
  - injection Hb' as ->. rewrite decide_True in Hnd by done.
    apply NoDup_cons in Hnd as [Hnot _]. destruct Hnot. by eapply Hin.
  - f_equal. apply IH; try done.
    destruct (decide (P k)); [by apply NoDup_cons in Hnd as [_ ?]|done].
Qed.

Lemma NoDup_filter_concat_lookup (P : ascii → Prop) `{!∀ k, Decision (P k)}
    (lay : CharVector2D) (a a' b b' : nat) (row row' : list ascii) (key : ascii) :
  NoDup (filter P (concat lay)) →
  lay !! a = Some row → row !! b = Some key →
  lay !! a' = Some row' → row' !! b' = Some key →
  P key → a = a' ∧ b = b'.
Proof.
  revert a a' row row'.
  induction lay as [|r lay IH]; intros a a' row row' Hnd Ha Hb Ha' Hb' HP.
  { by rewrite lookup_nil in Ha. }
  cbn [concat] in Hnd. rewrite filter_app in Hnd.
  apply NoDup_app in Hnd as (Hr & Hdisj & Hlay).
  assert (Hhere : ∀ n, r !! n = Some key → key ∈ filter P r).
  { intros n Hn. apply list_elem_of_filter. split; [done|].
    by eapply list_elem_of_lookup_2. }
  assert (Hthere : ∀ m n rw, lay !! m = Some rw → rw !! n = Some key →
                             key ∈ filter P (concat lay)).
  { intros m n rw Hm Hn. apply list_elem_of_filter. split; [done|].
    apply list_elem_of_In, in_concat. exists rw.
    split; apply list_elem_of_In; by eapply list_elem_of_lookup_2. }
  destruct a as [|a], a' as [|a']; simpl in Ha, Ha'.
  - injection Ha as ->. injection Ha' as ->. split; [done|].
    exact (NoDup_filter_lookup P _ _ _ _ Hr Hb Hb' HP).
  - injection Ha as ->. exfalso. eapply Hdisj; [by eapply Hhere|by eapply Hthere].
  - injection Ha' as ->. exfalso. eapply Hdisj; [by eapply Hhere|by eapply Hthere].
  - destruct (IH a a' row row') as [-> ->]; done.
Qed.

Lemma distinct_keys_inj (inv : ascii) (lay : CharVector2D) (c c' : Coordinates)
    (key : ascii) :
  distinct_keys inv lay →
  at2 lay c.1 c.2 = Ok key → at2 lay c'.1 c'.2 = Ok key → key ≠ inv → c = c'.
Proof.
  intros Hd Hc Hc' Hne.
  apply at2_Ok in Hc as (Hx & Hy & row & Hrow & Hkey).
  apply at2_Ok in Hc' as (Hx' & Hy' & row' & Hrow' & Hkey').
  destruct (NoDup_filter_concat_lookup (λ k, k ≠ inv) lay _ _ _ _ _ _ key
              Hd Hrow Hkey Hrow' Hkey' Hne) as [Ha Hb].
  destruct c as [x y], c' as [x' y']. simpl in *. f_equal; lia.
Qed.

(** The table the constructor builds for the knight on a rectangular
    layout without a repeated key is closed. *)
Lemma built_table_closed (inv : ascii) (lay : CharVector2D) (km : ValidKeyMoves) :
  rectangular lay → distinct_keys inv lay →
  SetValidMovesForAllKeys {| invalidKey := inv; layout := lay |} Knight ∅ = Ok km →
  closed_table lay inv km.
Proof.
  intros Hrect Hdist Hkm. rewrite SetValidMovesForAllKeys_cells in Hkm.
  cbn [layout invalidKey] in Hkm.
  assert (Hentry : ∀ c key, c ∈ cells lay → at2 lay c.1 c.2 = Ok key → key ≠ inv →
                            is_Some (km !! key)).
  { intros c key Hc Hkey Hne. rewrite (table_lookup _ _ _ _ _ _ key Hkm).
    rewrite lookup_empty, decide_False by done.
    destruct (first_cell_is_Some lay key (cells lay) c Hc Hkey) as [c0 Hc0].
    rewrite Hc0. apply first_cell_Some in Hc0 as [Hin0 Hkey0].
    destruct (table_moves_defined _ _ _ _ _ _ c0 key Hkm Hin0 Hkey0 Hne) as [moves ->].
    by eexists. }
  split; [exact Hentry|]. split.
  { intros c Hc. apply elem_of_cells in Hc as [? ?]. by apply at2_rectangular. }
  intros pos key moves Hkey Hmoves.
  rewrite (table_lookup _ _ _ _ _ _ key Hkm), lookup_empty in Hmoves.
  case_decide as Hne; [discriminate|].
  destruct (first_cell lay key (cells lay)) as [c0|] eqn:Hc0; [|discriminate].
  apply first_cell_Some in Hc0 as [Hin0 Hkey0].
  destruct (valid_moves_at Knight inv lay c0.1 c0.2) as [moves'| | |] eqn:Hvm;
    try discriminate.
  injection Hmoves as ->.
  assert (pos = c0) as -> by (by eapply distinct_keys_inj).
  apply valid_moves_at_Ok in Hvm as [Hsub Hvalid]. split.
  { eapply sublist_NoDup; [apply Knight_GetMoves_NoDup|done]. }
  intros move Hmove. apply Hvalid, Knight_valid_move_lands in Hmove
    as (Hx & Hy & key' & Hkey' & Hne').
  exists key'. split; [exact Hkey'|].
  apply (Hentry (move_to c0 move)); [|done..].
  apply elem_of_cells. unfold move_to. simpl. lia.
Qed.

(** ** The walks the enumeration counts *)

Section WalkFacts.

Context (lay : CharVector2D) (inv : ascii) (km : ValidKeyMoves).

Lemma move_to_diff (pos move : Coordinates) :
  ((move_to pos move).1 - pos.1, (move_to pos move).2 - pos.2) = move.
Proof. destruct pos, move. unfold move_to. simpl. f_equal; lia. Qed.

Lemma move_to_of_diff (pos pos' : Coordinates) :
  move_to pos (pos'.1 - pos.1, pos'.2 - pos.2) = pos'.
Proof. destruct pos, pos'. unfold move_to. simpl. f_equal; lia. Qed.

Lemma move_to_inj (pos move move' : Coordinates) :
  move_to pos move = move_to pos move' → move = move'.
Proof. intros H. by rewrite <- (move_to_diff pos move), H, move_to_diff. Qed.

Lemma append_empty_r (s : string) : s +:+ EmptyString = s.
Proof. induction s as [|c s IH]; [done|]. rewrite append_cons. by f_equal. Qed.

(** The extensions of a partial sequence are the chains of cells along
    which the vowels never exceed the bound. *)
Lemma elem_of_extensions mv d seq pos s :
  s ∈ extensions lay km mv d seq pos ↔
  length s = d ∧ chain lay km pos s ∧
  ∀ n, (CountVowels (seq +:+ labels lay (take n s)) ≤ mv)%nat.
Proof.
  revert seq pos s. induction d as [|d IH]; intros seq pos s.
  - cbn [extensions]. destruct (mv <? CountVowels seq)%nat eqn:Hv.
    + apply Nat.ltb_lt in Hv. split; [by intros ?%elem_of_nil|].
      intros (_ & _ & Hn). specialize (Hn 0%nat).
      rewrite take_0 in Hn. cbn [labels] in Hn. rewrite append_empty_r in Hn. lia.
    + apply Nat.ltb_ge in Hv. rewrite list_elem_of_singleton. split.
      * intros ->. split; [done|]. split; [done|]. intros n.
        rewrite take_nil. cbn [labels]. by rewrite append_empty_r.
      * intros (Hlen & _ & _). by destruct s.
  - cbn [extensions]. destruct (mv <? CountVowels seq)%nat eqn:Hv.
    { apply Nat.ltb_lt in Hv. split; [by intros ?%elem_of_nil|].
      intros (_ & _ & Hn). specialize (Hn 0%nat).
      rewrite take_0 in Hn. cbn [labels] in Hn. rewrite append_empty_r in Hn. lia. }
    apply Nat.ltb_ge in Hv. split.
    + intros Hs.
      destruct (at2 lay pos.1 pos.2) as [key| | |] eqn:Hkey;
        try by apply elem_of_nil in Hs.
      destruct (km !! key) as [moves|] eqn:Hkm; [|by apply elem_of_nil in Hs].
      apply list_elem_of_bind in Hs as (move & Hs & Hmove). cbv zeta in Hs.
      destruct (at2 lay (move_to pos move).1 (move_to pos move).2) as [c| | |] eqn:Hc;
        try by apply elem_of_nil in Hs.
      apply list_elem_of_fmap in Hs as (rest & -> & Hrest).
      apply IH in Hrest as (Hlen & Hchain & Hvow).
      split; [simpl; lia|]. split.
      * split; [|done]. exists key, moves. rewrite move_to_diff.
        split; [done|]. split; [done|]. split; [done|]. by exists c.
      * intros [|n].
        -- rewrite take_0. cbn [labels]. by rewrite append_empty_r.
        -- cbn [take labels]. rewrite Hc, <- push_char_app. apply Hvow.
    + intros (Hlen & Hchain & Hvow).
      destruct s as [|pos' rest]; [discriminate|].
      destruct Hchain as [(key & moves & Hkey & Hkm & Hmove & [c Hc]) Hchain].
      rewrite Hkey, Hkm. apply list_elem_of_bind.
      exists (pos'.1 - pos.1, pos'.2 - pos.2). split; [|done].
      cbv zeta. rewrite move_to_of_diff, Hc.
      apply list_elem_of_fmap. exists rest. split; [done|].
      apply IH. split; [simpl in Hlen; lia|]. split; [done|].
      intros n. specialize (Hvow (S n)). cbn [take labels] in Hvow.
      by rewrite Hc, <- push_char_app in Hvow.
Qed.

Lemma NoDup_extensions mv d seq pos :
  (∀ pos key moves, at2 lay pos.1 pos.2 = Ok key → km !! key = Some moves →
                    NoDup moves) →
  NoDup (extensions lay km mv d seq pos).
Proof.
  intros Hnd. revert seq pos. induction d as [|d IH]; intros seq pos.
  - cbn [extensions]. destruct (mv <? CountVowels seq)%nat; [constructor|].
    apply NoDup_singleton.
  - cbn [extensions]. destruct (mv <? CountVowels seq)%nat; [constructor|].
    destruct (at2 lay pos.1 pos.2) as [key| | |] eqn:Hkey; try constructor.
    destruct (km !! key) as [moves|] eqn:Hkm; [|constructor].
    apply NoDup_bind.
    + intros m1 m2 s _ _ H1 H2. cbv zeta in H1, H2.
      destruct (at2 lay (move_to pos m1).1 (move_to pos m1).2);
        try by apply elem_of_nil in H1.
      destruct (at2 lay (move_to pos m2).1 (move_to pos m2).2);
        try by apply elem_of_nil in H2.
      apply list_elem_of_fmap in H1 as (r1 & -> & _).
      apply list_elem_of_fmap in H2 as (r2 & Heq & _).
      apply (move_to_inj pos). congruence.
    + intros move _. cbv zeta.
      destruct (at2 lay (move_to pos move).1 (move_to pos move).2); try constructor.
      apply NoDup_fmap_2; [|apply IH]. by intros ?? [=].
    + by eapply Hnd.
Qed.

Lemma NoDup_cells : NoDup (cells lay).
Proof.
  unfold cells, range. apply NoDup_bind.
  - intros i1 i2 c _ _ H1 H2.
    apply list_elem_of_fmap in H1 as (j1 & -> & _).
    by apply list_elem_of_fmap in H2 as (j2 & [= -> _] & _).
  - intros i _. apply NoDup_fmap_2; [by intros ?? [=]|apply NoDup_seqZ].
  - apply NoDup_seqZ.
Qed.

Lemma elem_of_walks_from mv L c w :
  w ∈ walks_from lay inv km mv L c ↔
  ∃ key s, at2 lay c.1 c.2 = Ok key ∧ key ≠ inv ∧ w = c :: s ∧
           s ∈ extensions lay km mv (L - 1) (String key EmptyString) c.
Proof.
  unfold walks_from. split.
  - intros Hw. destruct (at2 lay c.1 c.2) as [key| | |] eqn:Hkey;
      try by apply elem_of_nil in Hw.
    destruct (Ascii.eqb key inv) eqn:Hne; simpl in Hw; [by apply elem_of_nil in Hw|].
    apply Ascii.eqb_neq in Hne. apply list_elem_of_fmap in Hw as (s & -> & Hs).
    by exists key, s.
  - intros (key & s & -> & Hne & -> & Hs). apply Ascii.eqb_neq in Hne.
    rewrite Hne. simpl. by apply list_elem_of_fmap_2.
Qed.

(** The walks enumerated are the valid walks, each of them once. *)
Lemma elem_of_all_walks mv L w :
  (1 ≤ L)%nat → w ∈ all_walks lay inv km mv L ↔ valid_walk lay inv km mv L w.
Proof.
  intros HL. unfold all_walks, valid_walk, walk. rewrite list_elem_of_bind. split.
  - intros (c & Hw & Hc).
    apply elem_of_walks_from in Hw as (key & s & Hkey & Hne & -> & Hs).
    apply elem_of_extensions in Hs as (Hlen & Hchain & Hvow).
    apply elem_of_cells in Hc as [Hx Hy]. split.
    + split; [simpl; lia|]. exists c, s. split; [done|]. split; [|done].
      split; [done|]. split; [done|]. by exists key.
    + intros [|n]; [simpl; lia|]. cbn [take labels]. rewrite Hkey.
      specialize (Hvow n). by rewrite append_cons, append_nil in Hvow.
  - intros [(Hlen & c & s & -> & (Hx & Hy & key & Hkey & Hne) & Hchain) Hvow].
    exists c. split; [|by apply elem_of_cells].
    apply elem_of_walks_from. exists key, s. do 3 (split; [done|]).
    apply elem_of_extensions. split; [simpl in Hlen; lia|]. split; [done|].
    intros n. specialize (Hvow (S n)). cbn [take labels] in Hvow.
    rewrite Hkey in Hvow. by rewrite append_cons, append_nil.
Qed.

Lemma NoDup_all_walks mv L :
  (∀ pos key moves, at2 lay pos.1 pos.2 = Ok key → km !! key = Some moves →
                    NoDup moves) →
  NoDup (all_walks lay inv km mv L).
Proof.
  intros Hnd. unfold all_walks. apply NoDup_bind.
  - intros c1 c2 w _ _ H1 H2.
    apply elem_of_walks_from in H1 as (? & ? & _ & _ & -> & _).
    by apply elem_of_walks_from in H2 as (? & ? & _ & _ & [= -> _] & _).
  - intros c _. unfold walks_from.
    destruct (at2 lay c.1 c.2); try constructor.
    destruct (negb (Ascii.eqb a inv)); [|constructor].
    apply NoDup_fmap_2; [by intros ?? [=]|]. by apply NoDup_extensions.
  - apply NoDup_cells.
Qed.


(** More vowels allowed, more walks; with as many vowels allowed as a
    walk has cells, every walk. *)
Lemma valid_walk_mono mv mv' L w :
  (mv ≤ mv')%nat → valid_walk lay inv km mv L w → valid_walk lay inv km mv' L w.
Proof. intros Hle [Hw Hvow]. split; [done|]. intros n. specialize (Hvow n). lia. Qed.


Lemma all_walks_mono mv mv' L :
  (1 ≤ L)%nat → (mv ≤ mv')%nat →
  (∀ pos key moves, at2 lay pos.1 pos.2 = Ok key → km !! key = Some moves →
                    NoDup moves) →
  (length (all_walks lay inv km mv L) ≤ length (all_walks lay inv km mv' L))%nat.
Proof.
  intros HL Hle Hnd. apply submseteq_length, NoDup_submseteq.
  - by apply NoDup_all_walks.
  - intros w Hw. apply elem_of_all_walks; [done|].
    apply (valid_walk_mono mv); [done|]. by apply elem_of_all_walks.
Qed.

(** ** Counting without listing *)

Lemma count_extensions_length mv d seq pos :
  N.of_nat (length (extensions lay km mv d seq pos)) =
  count_extensions lay km mv d (CountVowels seq) pos.
Proof.
  revert seq pos. induction d as [|d IH]; intros seq pos.
  - cbn [extensions count_extensions]. by destruct (mv <? CountVowels seq)%nat.
  - cbn [extensions count_extensions]. destruct (mv <? CountVowels seq)%nat; [done|].
    destruct (at2 lay pos.1 pos.2) as [key| | |]; try done.
    destruct (km !! key) as [moves|]; [|done].
    induction moves as [|move moves IHm]; [done|].
    cbn [mbind list_bind foldr]. cbv zeta in IHm |- *.
    rewrite length_app, Nat2N.inj_add, IHm. f_equal.
    destruct (at2 lay (move_to pos move).1 (move_to pos move).2) as [c| | |]; try done.
    by rewrite length_fmap, IH, CountVowels_push_char.
Qed.

Lemma count_all_length mv L :
  N.of_nat (length (all_walks lay inv km mv L)) = count_all lay inv km mv L.
Proof.
  unfold all_walks, count_all. induction (cells lay) as [|c l IH]; [done|].
  cbn [mbind list_bind foldr]. rewrite length_app, Nat2N.inj_add, IH. f_equal.
  unfold walks_from, count_from. destruct (at2 lay c.1 c.2) as [key| | |]; try done.
  destruct (negb (Ascii.eqb key inv)); [|done].
  rewrite length_fmap, count_extensions_length. cbn [CountVowels]. f_equal. lia.
Qed.

End WalkFacts.

(** ** Walks and their keys *)




(** ** The reference configuration *)

Lemma main_layout_rectangular : rectangular main_layout.
Proof.
  unfold rectangular. cbn. split; [lia|]. split; [lia|]. repeat constructor.
Qed.

Lemma main_layout_distinct : distinct_keys NUL main_layout.
Proof. apply (bool_decide_unpack (distinct_keys NUL main_layout)). by vm_compute. Qed.

Lemma main_layout_closed :
  ∃ km, SetValidMovesForAllKeys {| invalidKey := NUL; layout := main_layout |} Knight ∅
          = Ok km ∧
        closed_table main_layout NUL km.
Proof.
  destruct (SetValidMovesForAllKeys_defined NUL main_layout ∅ main_layout_rectangular)
    as [km Hkm].
  exists km. split; [exact Hkm|].
  exact (built_table_closed NUL main_layout km
           main_layout_rectangular main_layout_distinct Hkm).
Qed.

(** * The properties *)

Lemma closed_table_NoDup (lay : CharVector2D) (inv : ascii) (km : ValidKeyMoves) :
  closed_table lay inv km →
  ∀ pos key moves, at2 lay pos.1 pos.2 = Ok key → km !! key = Some moves → NoDup moves.
Proof. intros (_ & _ & H) pos key moves Hkey Hkm. by destruct (H pos key moves). Qed.

Lemma pushed_length (lay : CharVector2D) (seq : string) (x y : Z)
    (moves : list Coordinates) (cs : Queue) :
  pushed lay seq x y moves cs →
  Forall (λ node, String.length node.1 = S (String.length seq)) cs.
Proof.
  intros Hp. induction Hp as [|move node moves cs (c & Hc & ->) _ IH]; constructor;
    [|done].
  apply length_push_char.
Qed.

(** What an iteration that returns leaves in the queue: the sequences
    pushed are one key longer than the one dequeued, and nothing is
    pushed for a sequence of full length or with too many vowels. *)
Lemma bfs_body_pushes (kb : Keyboard) (i j : Z) (seq : string) (x y : Z) (q q' : Queue)
    (sequences sequences' : KeySequences) :
  bfs_body kb i j (seq, (x, y)) q sequences = Ok (q', sequences') →
  ∃ cs, q' = q ++ cs ∧
        Forall (λ node, String.length node.1 = S (String.length seq)) cs ∧
        (String.length seq = sequenceLength kb ∨
         (maxVowelCount kb < CountVowels seq)%nat → cs = []).
Proof.
  intros H.
  destruct (decide (maxVowelCount kb < CountVowels seq)%nat) as [Hv|Hv].
  { rewrite bfs_body_pruned in H by done. injection H as <- <-.
    exists []. by rewrite app_nil_r. }
  destruct (decide (String.length seq = sequenceLength kb)) as [Hl|Hl].
  - rewrite bfs_body_complete in H by lia.
    apply bind_Ok in H as (key & _ & [= <- <-]). exists []. by rewrite app_nil_r.
  - rewrite bfs_body_expand in H by lia.
    apply bind_Ok in H as (key & Hkey & H).
    apply bind_Ok in H as (moves & Hmoves & H).
    apply bind_Ok in H as (q1 & Hpush & [= <- <-]).
    apply push_moves_Ok in Hpush as (cs & -> & Hcs).
    exists cs. split; [done|]. split; [by eapply pushed_length|]. intros [?|?]; lia.
Qed.



Lemma KeyboardLayout_new_rectangular (inv : ascii) (lay : CharVector2D) :
  rectangular lay →
  KeyboardLayout.new inv lay = Ok {| invalidKey := inv; layout := lay |}.
Proof.
  intros (Hrows & Hcols & _). destruct lay as [|[|key row0] lay]; simpl in *; (lia || done).
Qed.

Lemma KeyboardCtor_new_Ok (L mv : nat) (kl : KeyboardLayout) (piece : ChessPiece)
    (km : ValidKeyMoves) (io : Streams) :
  (1 ≤ L)%nat → SetValidMovesForAllKeys kl piece ∅ = Ok km →
  KeyboardCtor.new L mv kl piece io =
  (io, Ok {| sequenceLength := L; maxVowelCount := mv; keyboardLayout := kl;
             chessPiecePtr := piece; keyMoves := km |}).
Proof.
  intros HL Hkm. unfold KeyboardCtor.new. destruct L as [|L]; [lia|].
  cbn [Nat.eqb]. by rewrite Hkm.
Qed.

Lemma built_table_valid_keys (piece : ChessPiece) (kl : KeyboardLayout)
    (km : ValidKeyMoves) (key : ascii) :
  SetValidMovesForAllKeys kl piece ∅ = Ok km → is_Some (km !! key) → key ≠ invalidKey kl.
Proof.
  intros Hkm [moves Hmoves] ->. rewrite SetValidMovesForAllKeys_cells in Hkm.
  rewrite (table_lookup _ _ _ _ _ _ (invalidKey kl) Hkm), lookup_empty in Hmoves.
  by rewrite decide_True in Hmoves.
Qed.

(** C5, for layouts without a repeated key: on a rectangular layout on
    which no key other than the invalid one is on two cells, the
    constructors return, every lookup of the enumeration is for a key of
    the table, every sequence in the queue ends on a cell with such a key,
    which is not the invalid key, and the enumeration returns without an
    exception and without undefined behaviour. *)
Theorem enumeration_raises_no_error (L mv : nat) (inv : ascii) (lay : CharVector2D)
    (io : Streams) :
  (1 ≤ L)%nat → rectangular lay → distinct_keys inv lay →
  ∃ kb,
    KeyboardLayout.new inv lay = Ok (keyboardLayout kb) ∧
    KeyboardCtor.new L mv (keyboardLayout kb) Knight io = (io, Ok kb) ∧
    (∀ key, is_Some (keyMoves kb !! key) → key ≠ inv) ∧
    (∀ c key, c ∈ cells lay → at2 lay c.1 c.2 = Ok key → key ≠ inv →
              on_key lay (keyMoves kb) (String key EmptyString, c)) ∧
    (∀ i j front q sequences,
       is_Ok (at2 lay i j) → on_key lay (keyMoves kb) front →
       Forall (on_key lay (keyMoves kb)) q →
       ∃ q' sequences',
         bfs_body kb i j front q sequences = Ok (q', sequences') ∧
         Forall (on_key lay (keyMoves kb)) q') ∧
    (∀ fuel, GenerateSequences kb fuel = OutOfFuel ∨ is_Ok (GenerateSequences kb fuel)) ∧
    (∃ bound, ∀ fuel, (bound ≤ fuel)%nat → is_Ok (GenerateSequences kb fuel)).
Proof.
  intros HL Hrect Hdist.
  destruct (SetValidMovesForAllKeys_defined inv lay ∅ Hrect) as [km Hkm].
  pose proof (built_table_closed inv lay km Hrect Hdist Hkm) as Hclosed.
  set (kb := {| sequenceLength := L; maxVowelCount := mv;
                keyboardLayout := {| invalidKey := inv; layout := lay |};
                chessPiecePtr := Knight; keyMoves := km |}).
  exists kb. split; [by apply KeyboardLayout_new_rectangular|].
  split; [by apply KeyboardCtor_new_Ok|].
  split; [intros key; by apply (built_table_valid_keys _ _ _ _ Hkm)|]. split.
  { intros c key Hc Hkey Hne. exists key. split; [done|].
    destruct Hclosed as (Hentry & _). by eapply Hentry. }
  split; [intros; by apply (bfs_body_safe kb)|]. split.
  - intros fuel. rewrite GenerateSequences_cells. by apply (cells_safe kb).
  - exists (enough_fuel lay km mv L). intros fuel Hfuel.
    destruct (GenerateSequences_closed kb fuel Hclosed HL Hfuel) as (sequences & H & _).
    by exists sequences.
Qed.

Lemma enumeration_raises_no_error_witness :
  (1 ≤ 10)%nat ∧ rectangular main_layout ∧ distinct_keys NUL main_layout ∧
  ∃ kb,
    KeyboardLayout.new NUL main_layout = Ok (keyboardLayout kb) ∧
    KeyboardCtor.new 10 2 (keyboardLayout kb) Knight {| cout := ""; cerr := "" |}
      = ({| cout := ""; cerr := "" |}, Ok kb) ∧
    (∀ key, is_Some (keyMoves kb !! key) → key ≠ NUL) ∧
    (∀ c key, c ∈ cells main_layout → at2 main_layout c.1 c.2 = Ok key → key ≠ NUL →
              on_key main_layout (keyMoves kb) (String key EmptyString, c)) ∧
    (∀ i j front q sequences,
       is_Ok (at2 main_layout i j) → on_key main_layout (keyMoves kb) front →
       Forall (on_key main_layout (keyMoves kb)) q →
       ∃ q' sequences',
         bfs_body kb i j front q sequences = Ok (q', sequences') ∧
         Forall (on_key main_layout (keyMoves kb)) q') ∧
    (∀ fuel, GenerateSequences kb fuel = OutOfFuel ∨ is_Ok (GenerateSequences kb fuel)) ∧
    (∃ bound, ∀ fuel, (bound ≤ fuel)%nat → is_Ok (GenerateSequences kb fuel)).
Proof.
  assert (Hrect : rectangular main_layout).
  { unfold rectangular. cbn. split; [lia|]. split; [lia|]. repeat constructor. }
  assert (Hdist : distinct_keys NUL main_layout).
  { apply (bool_decide_unpack (distinct_keys NUL main_layout)). by vm_compute. }
  split; [lia|]. split; [exact Hrect|]. split; [exact Hdist|].
  apply (enumeration_raises_no_error 10 2 NUL main_layout); [lia|exact Hrect|exact Hdist].
Defined.

(** C5, as stated, fails: with the key [B] on two cells the table built
    from the layout keeps for [B] the moves of the first cell, the second
    cell is left by one of them to the cell of the invalid key, and the
    lookup of that key throws. *)
Lemma repeated_key_lookup_throws :
  ∃ kb,
    (KeyboardCtor.new 3 2 {| invalidKey := NUL; layout := repeated_key_layout |} Knight
       {| cout := ""; cerr := "" |}).2 = Ok kb ∧
    GenerateSequences kb 100 = Throw (out_of_range "unordered_map::at").
Proof.
  eexists. split; [vm_compute; reflexivity|]. vm_compute. reflexivity.
Qed.

(** C10: the loop that builds the table never overwrites an entry: a key
    that has a list before the loop has the same list after it. After
    the table is built from the empty one, the entry of a valid key is
    the list of the moves that are valid from the first cell, in the
    order of the loops, that carries the key, and the lookup of the key
    returns that list. An iteration of the enumeration that expands a
    sequence ending on any cell with that key leaves the map of the
    sequences alone and pushes, for the moves of that list in their
    order, the sequence extended by the key found at the cell the move
    leads to, together with that cell; it returns when every move of the
    list leads to a cell of the layout. *)
Theorem first_cell_moves_kept (kb : Keyboard) (key : ascii) (c : Coordinates) :
  SetValidMovesForAllKeys (keyboardLayout kb) (chessPiecePtr kb) ∅ = Ok (keyMoves kb) →
  key ≠ invalidKey (keyboardLayout kb) →
  first_cell (layout (keyboardLayout kb)) key (cells (layout (keyboardLayout kb))) = Some c →
  (∀ (km0 km' : ValidKeyMoves) moves0,
     km0 !! key = Some moves0 →
     SetValidMovesForAllKeys (keyboardLayout kb) (chessPiecePtr kb) km0 = Ok km' →
     km' !! key = Some moves0) ∧
  ∃ moves,
    valid_moves_at (chessPiecePtr kb) (invalidKey (keyboardLayout kb))
      (layout (keyboardLayout kb)) c.1 c.2 = Ok moves ∧
    keyMoves kb !! key = Some moves ∧
    GetValidMovesForAKey (keyMoves kb) key = Ok moves ∧
    ∀ i j seq x y q sequences,
      at2 (layout (keyboardLayout kb)) x y = Ok key →
      (CountVowels seq ≤ maxVowelCount kb)%nat →
      String.length seq ≠ sequenceLength kb →
      (∀ q' sequences',
         bfs_body kb i j (seq, (x, y)) q sequences = Ok (q', sequences') →
         sequences' = sequences ∧
         ∃ cs, q' = q ++ cs ∧ pushed (layout (keyboardLayout kb)) seq x y moves cs) ∧
      ((∀ move, move ∈ moves →
          is_Ok (at2 (layout (keyboardLayout kb)) (x + move.1) (y + move.2))) →
       is_Ok (bfs_body kb i j (seq, (x, y)) q sequences)).
Proof.
  intros Hkm Hne Hfirst. split.
  { intros km0 km' moves0 H0 Hkm'. rewrite SetValidMovesForAllKeys_cells in Hkm'.
    by rewrite (table_lookup _ _ _ _ _ _ key Hkm'), H0. }
  rewrite SetValidMovesForAllKeys_cells in Hkm.
  pose proof (first_cell_Some _ _ _ _ Hfirst) as [Hin Hkey].
  destruct (table_moves_defined _ _ _ _ _ _ c key Hkm Hin Hkey Hne) as [moves Hmoves].
  assert (Hentry : keyMoves kb !! key = Some moves).
  { rewrite (table_lookup _ _ _ _ _ _ key Hkm), lookup_empty, decide_False by done.
    by rewrite Hfirst, Hmoves. }
  assert (Hat : GetValidMovesForAKey (keyMoves kb) key = Ok moves).
  { unfold GetValidMovesForAKey. by rewrite Hentry. }
  exists moves. do 3 (split; [done|]).
  intros i j seq x y q sequences Hxy Hv Hl.
  rewrite bfs_body_expand by done. rewrite Hxy, bind_of_Ok, Hat, bind_of_Ok. split.
  - intros q' sequences' H. apply bind_Ok in H as (q1 & Hpush & [= <- <-]).
    split; [done|]. by apply push_moves_Ok in Hpush.
  - intros Hdest.
    destruct (push_moves_defined kb seq x y moves q Hdest) as [q1 Hq1].
    rewrite Hq1, bind_of_Ok. by eexists.
Qed.

Lemma first_cell_moves_kept_witness :
  ∃ kb,
    SetValidMovesForAllKeys (keyboardLayout kb) (chessPiecePtr kb) ∅ = Ok (keyMoves kb) ∧
    "B"%char ≠ invalidKey (keyboardLayout kb) ∧
    first_cell (layout (keyboardLayout kb)) "B" (cells (layout (keyboardLayout kb)))
      = Some (0, 0) ∧
    layout (keyboardLayout kb) = repeated_key_layout ∧
    (∀ (km0 km' : ValidKeyMoves) moves0,
       km0 !! "B"%char = Some moves0 →
       SetValidMovesForAllKeys (keyboardLayout kb) (chessPiecePtr kb) km0 = Ok km' →
       km' !! "B"%char = Some moves0) ∧
    ∃ moves,
      valid_moves_at (chessPiecePtr kb) (invalidKey (keyboardLayout kb))
        (layout (keyboardLayout kb)) 0 0 = Ok moves ∧
      keyMoves kb !! "B"%char = Some moves ∧
      GetValidMovesForAKey (keyMoves kb) "B" = Ok moves ∧
      ∀ i j seq x y q sequences,
        at2 (layout (keyboardLayout kb)) x y = Ok "B"%char →
        (CountVowels seq ≤ maxVowelCount kb)%nat →
        String.length seq ≠ sequenceLength kb →
        (∀ q' sequences',
           bfs_body kb i j (seq, (x, y)) q sequences = Ok (q', sequences') →
           sequences' = sequences ∧
           ∃ cs, q' = q ++ cs ∧ pushed (layout (keyboardLayout kb)) seq x y moves cs) ∧
        ((∀ move, move ∈ moves →
            is_Ok (at2 (layout (keyboardLayout kb)) (x + move.1) (y + move.2))) →
         is_Ok (bfs_body kb i j (seq, (x, y)) q sequences)).
Proof.
  destruct (SetValidMovesForAllKeys {| invalidKey := NUL; layout := repeated_key_layout |}
              Knight ∅) as [km| | |] eqn:Hkm; try (vm_compute in Hkm; discriminate Hkm).
  exists {| sequenceLength := 3; maxVowelCount := 2;
            keyboardLayout := {| invalidKey := NUL; layout := repeated_key_layout |};
            chessPiecePtr := Knight; keyMoves := km |}.
  split; [exact Hkm|]. split; [discriminate|]. split; [reflexivity|].
  split; [reflexivity|].
  apply (first_cell_moves_kept
           {| sequenceLength := 3; maxVowelCount := 2;
              keyboardLayout := {| invalidKey := NUL; layout := repeated_key_layout |};
              chessPiecePtr := Knight; keyMoves := km |} "B"%char (0, 0));
    [exact Hkm|discriminate|reflexivity].
Defined.

(** ** Sequences of one key *)

Lemma from_cell_alone (kb : Keyboard) (fuel : nat) (c : Coordinates)
    (sequences : KeySequences) :
  sequenceLength kb = 1%nat → is_Ok (at2 (layout (keyboardLayout kb)) c.1 c.2) →
  ∃ sequences',
    from_cell kb (S fuel) c sequences = Ok sequences' ∧
    total_sequences sequences' =
    (total_sequences sequences +
     if counted_alone (layout (keyboardLayout kb)) (invalidKey (keyboardLayout kb))
          (maxVowelCount kb) c then 1 else 0)%nat.
Proof.
  intros HL [key Hkey]. unfold from_cell, counted_alone. cbv zeta.
  rewrite Hkey, bind_of_Ok.
  destruct (Ascii.eqb key (invalidKey (keyboardLayout kb))); cbn [negb andb].
  { exists sequences. split; [done|lia]. }
  cbn [bfs_while].
  destruct (decide (maxVowelCount kb < CountVowels (String key EmptyString))%nat)
    as [Hv|Hv].
  - rewrite bfs_body_pruned by done. rewrite bind_of_Ok. cbn [fst snd].
    exists sequences. replace (bfs_while kb fuel c.1 c.2 [] sequences) with (Ok sequences)
      by (by destruct fuel).
    split; [done|]. simpl in Hv. destruct (IsVowel key); simpl.
    + destruct (maxVowelCount kb); simpl; lia.
    + lia.
  - rewrite bfs_body_complete by (simpl in *; lia).
    rewrite Hkey, !bind_of_Ok. cbn [fst snd].
    exists (push_back sequences key (String key EmptyString)).
    replace (bfs_while kb fuel c.1 c.2 [] (push_back sequences key (String key EmptyString)))
      with (Ok (push_back sequences key (String key EmptyString))) by (by destruct fuel).
    split; [done|]. rewrite total_sequences_push_back.
    simpl in Hv. destruct (IsVowel key); simpl.
    + destruct (maxVowelCount kb); simpl; lia.
    + lia.
Qed.

Lemma cells_alone (kb : Keyboard) (fuel : nat) (l : list Coordinates)
    (sequences : KeySequences) :
  sequenceLength kb = 1%nat →
  (∀ c, c ∈ l → is_Ok (at2 (layout (keyboardLayout kb)) c.1 c.2)) →
  ∃ sequences',
    for_each l (from_cell kb (S fuel)) sequences = Ok sequences' ∧
    total_sequences sequences' =
    (total_sequences sequences +
     length (filter (λ c, counted_alone (layout (keyboardLayout kb))
                            (invalidKey (keyboardLayout kb)) (maxVowelCount kb) c = true)
               l))%nat.
Proof.
  intros HL. revert sequences. induction l as [|c l IH]; intros sequences Hl.
  - exists sequences. split; [done|]. simpl. lia.
  - destruct (from_cell_alone kb fuel c sequences HL) as (s1 & H1 & Hc1).
    { apply Hl. by left. }
    destruct (IH s1) as (s2 & H2 & Hc2).
    { intros. apply Hl. by right. }
    exists s2. cbn [for_each]. rewrite H1, bind_of_Ok. split; [done|].
    rewrite filter_cons. rewrite Hc2, Hc1.
    destruct (counted_alone _ _ _ c); simpl; lia.
Qed.

(** C4, with the vowels: on a rectangular layout and for a sequence length
    of one, the enumeration returns, and the number of sequences is the
    number of valid cells whose key is not a vowel or for which at least
    one vowel is allowed: all valid cells when [maxVowelCount] is at least
    one. *)
Theorem count_of_single_keys (kb : Keyboard) :
  rectangular (layout (keyboardLayout kb)) → sequenceLength kb = 1%nat →
  ∃ fuel sequences (counted : list Coordinates),
    GenerateSequences kb fuel = Ok sequences ∧
    total_sequences sequences = length counted ∧
    NoDup counted ∧
    (∀ c, c ∈ counted ↔
          start_cell (layout (keyboardLayout kb)) (invalidKey (keyboardLayout kb)) c ∧
          ∀ key, at2 (layout (keyboardLayout kb)) c.1 c.2 = Ok key →
                 IsVowel key = true → (1 ≤ maxVowelCount kb)%nat) ∧
    ((1 ≤ maxVowelCount kb)%nat →
     ∀ c, c ∈ counted ↔
          start_cell (layout (keyboardLayout kb)) (invalidKey (keyboardLayout kb)) c).
Proof.
  intros Hrect HL.
  set (lay := layout (keyboardLayout kb)) in *.
  set (inv := invalidKey (keyboardLayout kb)) in *.
  set (mv := maxVowelCount kb) in *.
  destruct (cells_alone kb 0 (cells lay) ∅ HL) as (sequences & H & Hcount).
  { intros c Hc. apply elem_of_cells in Hc as [? ?]. by apply at2_rectangular. }
  fold lay inv mv in Hcount. rewrite total_sequences_empty in Hcount.
  assert (Hin : ∀ c, c ∈ filter (λ c, counted_alone lay inv mv c = true) (cells lay) ↔
            start_cell lay inv c ∧
            ∀ key, at2 lay c.1 c.2 = Ok key → IsVowel key = true → (1 ≤ mv)%nat).
  { intros c. rewrite list_elem_of_filter, elem_of_cells. unfold counted_alone, start_cell.
    split.
    - intros [Hc [Hx Hy]]. destruct (at2 lay c.1 c.2) as [key| | |]; try discriminate.
      apply andb_true_iff in Hc as [Hne Hv]. apply negb_true_iff, Ascii.eqb_neq in Hne.
      split; [by eauto|]. intros ? [= <-] Hvowel. rewrite Hvowel in Hv.
      cbn [negb orb] in Hv. by apply Nat.leb_le.
    - intros [(Hx & Hy & key & Hkey & Hne) Hv]. split; [|done]. rewrite Hkey.
      apply andb_true_iff. split; [by apply negb_true_iff, Ascii.eqb_neq|].
      destruct (IsVowel key) eqn:Hvowel; [|done]. cbn [negb orb].
      apply Nat.leb_le. by eapply Hv. }
  exists 1%nat, sequences, (filter (λ c, counted_alone lay inv mv c = true) (cells lay)).
  split; [by rewrite GenerateSequences_cells|]. split; [done|].
  split; [apply NoDup_filter, NoDup_cells|]. split; [exact Hin|].
  intros Hmv c. rewrite Hin. split; [by intros [? _]|]. intros Hc. by split.
Qed.

Lemma count_of_single_keys_witness :
  rectangular main_layout ∧ (1 = 1)%nat ∧
  ∃ fuel sequences (counted : list Coordinates),
    GenerateSequences (keyboard_of 1 2 NUL main_layout ∅) fuel = Ok sequences ∧
    total_sequences sequences = length counted ∧
    NoDup counted ∧
    (∀ c, c ∈ counted ↔
          start_cell main_layout NUL c ∧
          ∀ key, at2 main_layout c.1 c.2 = Ok key → IsVowel key = true → (1 ≤ 2)%nat) ∧
    ((1 ≤ 2)%nat → ∀ c, c ∈ counted ↔ start_cell main_layout NUL c).
Proof.
  assert (Hrect : rectangular main_layout).
  { unfold rectangular. cbn. split; [lia|]. split; [lia|]. repeat constructor. }
  split; [exact Hrect|]. split; [reflexivity|].
  apply (count_of_single_keys (keyboard_of 1 2 NUL main_layout ∅)); [exact Hrect|reflexivity].
Defined.

(** C4, as stated, fails: when no vowel is allowed, the four valid cells
    of the reference layout with a vowel are not counted. *)
Lemma vowel_cells_not_counted :
  ∃ kb,
    (KeyboardCtor.new 1 0 {| invalidKey := NUL; layout := main_layout |} Knight
       {| cout := ""; cerr := "" |}).2 = Ok kb ∧
    aggregate_count kb 1 = Ok 14%nat ∧
    length (filter (λ key, key ≠ NUL) (concat main_layout)) = 18%nat.
Proof.
  eexists. split; [vm_compute; reflexivity|]. split; vm_compute; reflexivity.
Qed.

(** ** The run of the program *)

Lemma main_count :
  (km ← SetValidMovesForAllKeys {| invalidKey := NUL; layout := main_layout |} Knight ∅;
   Ok (count_all main_layout NUL km 2 10)) = Ok 1013398%N.
Proof. vm_compute. reflexivity. Qed.

(** C1: with enough iterations allowed, the program prints
    [Total number of sequences: 1013398] and a newline on its standard
    output, nothing on its standard error, and returns the status of
    success, zero. *)
Theorem main_prints_1013398 :
  ∃ bound, ∀ fuel, (bound ≤ fuel)%nat →
    main fuel =
    ({| cout := "Total number of sequences: 1013398" +:+ endl; cerr := "" |},
     Ok EXIT_SUCCESS) ∧
    EXIT_SUCCESS = 0.
Proof.
  destruct main_layout_closed as (km & Hkm & Hclosed).
  pose proof main_count as Hcount. rewrite Hkm, bind_of_Ok in Hcount.
  injection Hcount as Hcount.
  set (kb := {| sequenceLength := 10; maxVowelCount := 2;
                keyboardLayout := {| invalidKey := NUL; layout := main_layout |};
                chessPiecePtr := Knight; keyMoves := km |}).
  exists (enough_fuel main_layout km 2 10). intros fuel Hfuel. split; [|reflexivity].
  destruct (GenerateSequences_closed kb fuel Hclosed) as (sequences & Hgen & Htotal);
    [simpl; lia|exact Hfuel|].
  cbn [kb layout keyboardLayout invalidKey keyMoves maxVowelCount sequenceLength] in Htotal.
  assert (Hz : Z.of_nat (total_sequences sequences) = 1013398).
  { rewrite Htotal, <- nat_N_Z, count_all_length, Hcount. reflexivity. }
  unfold main, main_with.
  rewrite (KeyboardLayout_new_rectangular NUL main_layout main_layout_rectangular).
  rewrite (KeyboardCtor_new_Ok 10 2 _ Knight km _ ltac:(lia) Hkm).
  fold kb. unfold displayTotalSequences. rewrite Hgen, total_int, Hz.
  rewrite to_int_small by lia. reflexivity.
Qed.

(** * Further properties of the code *)

(** ** Vowels *)

(** [find] finds a character exactly when the string has it. *)
Lemma find_is_Some (s : string) (c : ascii) :
  is_Some (find s c) ↔ c ∈ String.list_ascii_of_string s.
Proof.
  induction s as [|a s IH]; cbn [find String.list_ascii_of_string].
  - split; [by intros [? ?]|by intros ?%elem_of_nil].
  - rewrite elem_of_cons. destruct (Ascii.eqb_spec a c) as [->|Hne].
    + split; [by left|by eexists].
    + rewrite <- IH. destruct (find s c); simpl.
      * split; [by right|by eexists].
      * split; [by intros [? ?]|]. intros [?|[? ?]]; congruence.
Qed.

Lemma IsVowel_letters (key : ascii) : IsVowel key = true ↔ key ∈ vowel_letters.
Proof.
  change vowel_letters with (String.list_ascii_of_string "AEIOU").
  rewrite <- find_is_Some. unfold IsVowel.
  destruct (find "AEIOU" key); split; done.
Qed.

(** X1: [CountVowels] is the number of characters of the sequence that
    are one of the capital letters A, E, I, O, U, and [IsVowel] holds of
    these five characters only. *)
Theorem CountVowels_counts_letters (seq : string) (key : ascii) :
  CountVowels seq =
    length (filter (λ c, c ∈ vowel_letters) (String.list_ascii_of_string seq)) ∧
  (IsVowel key = true ↔
   key = "A"%char ∨ key = "E"%char ∨ key = "I"%char ∨ key = "O"%char ∨ key = "U"%char).
Proof.
  split.
  - induction seq as [|c seq IH]; [done|].
    cbn [CountVowels String.list_ascii_of_string]. rewrite filter_cons, IH.
    destruct (IsVowel c) eqn:Hc.
    + apply IsVowel_letters in Hc. by rewrite decide_True.
    + rewrite decide_False; [done|]. intros Hin%IsVowel_letters. congruence.
  - rewrite IsVowel_letters. unfold vowel_letters.
    rewrite !elem_of_cons, elem_of_nil. tauto.
Qed.

(** X2: appending characters never lowers the number of vowels and adds
    at most one per character, so that a sequence with more vowels than
    allowed keeps more than allowed however it is continued, and a
    sequence never has more vowels than characters. *)
Theorem CountVowels_append (seq t : string) (c : ascii) (mv : nat) :
  (CountVowels seq ≤ CountVowels (seq +:+ t) ≤ CountVowels seq + String.length t)%nat ∧
  (CountVowels seq ≤ String.length seq)%nat ∧
  (CountVowels (push_char seq c) ≤ mv → CountVowels seq ≤ mv)%nat.
Proof.
  assert (Hlen : ∀ s, (CountVowels s ≤ String.length s)%nat).
  { intros s. induction s as [|a s IH]; simpl; [lia|]. destruct (IsVowel a); lia. }
  assert (Happ : ∀ s, CountVowels (s +:+ t) = (CountVowels s + CountVowels t)%nat).
  { intros s. induction s as [|a s IH]; [done|]. rewrite append_cons. simpl. lia. }
  split; [|split].
  - rewrite Happ. specialize (Hlen t). lia.
  - apply Hlen.
  - unfold push_char. rewrite CountVowels_app. lia.
Qed.

(** ** The knight *)

Lemma at2_no_short_row (lay : CharVector2D) (x y : Z) :
  no_short_row lay → 0 ≤ x < Z.of_nat (rows lay) → 0 ≤ y < Z.of_nat (cols lay) →
  is_Ok (at2 lay x y).
Proof.
  intros Hrows Hx Hy. unfold rows in Hx.
  destruct (lookup_lt_is_Some_2 lay (Z.to_nat x)) as [row Hrow]; [lia|].
  pose proof (proj1 (Forall_lookup _ _) Hrows _ _ Hrow) as Hlen. simpl in Hlen.
  destruct (lookup_lt_is_Some_2 row (Z.to_nat y)) as [key Hkey]; [lia|].
  exists key. apply at2_Ok. eauto 6 with lia.
Qed.

(** Inside the bounds it computes, [IsValidMove] reads the layout. *)
Lemma Knight_IsValidMove_inside (x y moveX moveY : Z) (inv : ascii) (lay : CharVector2D) :
  0 ≤ x + moveX < Z.of_nat (rows lay) → 0 ≤ y + moveY < Z.of_nat (cols lay) →
  @IsValidMove Knight x y moveX moveY inv lay =
  (key ← at2 lay (x + moveX) (y + moveY);
   Ok (negb (Ascii.eqb key inv) &&
       (((1 =? Z.abs moveX) && (2 =? Z.abs moveY)) ||
        ((2 =? Z.abs moveX) && (1 =? Z.abs moveY))))).
Proof.
  intros Hx Hy. cbn [IsValidMove Knight]. unfold Knight.IsValidMove.
  destruct lay as [|row0 lay]; [simpl in Hx; lia|].
  change (index (row0 :: lay) 0) with (Ok row0). rewrite bind_of_Ok.
  unfold rows in Hx. cbn [cols] in Hy.
  replace ((0 <=? x + moveX) && (x + moveX <? Z.of_nat (length (row0 :: lay))) &&
           (0 <=? y + moveY) && (y + moveY <? Z.of_nat (length row0))) with true; [done|].
  symmetry. rewrite !andb_true_iff. lia.
Qed.

Lemma Knight_IsValidMove_outside (x y moveX moveY : Z) (inv : ascii) (lay : CharVector2D) :
  lay ≠ [] →
  ¬ (0 ≤ x + moveX < Z.of_nat (rows lay) ∧ 0 ≤ y + moveY < Z.of_nat (cols lay)) →
  @IsValidMove Knight x y moveX moveY inv lay = Ok false.
Proof.
  intros Hne Hout. cbn [IsValidMove Knight]. unfold Knight.IsValidMove.
  destruct lay as [|row0 lay]; [done|].
  change (index (row0 :: lay) 0) with (Ok row0). rewrite bind_of_Ok.
  unfold rows in Hout. cbn [cols] in Hout.
  replace ((0 <=? x + moveX) && (x + moveX <? Z.of_nat (length (row0 :: lay))) &&
           (0 <=? y + moveY) && (y + moveY <? Z.of_nat (length row0))) with false; [done|].
  symmetry. rewrite !andb_false_iff. lia.
Qed.

Lemma Knight_IsValidMove_no_short_row (x y moveX moveY : Z) (inv : ascii)
    (lay : CharVector2D) :
  lay ≠ [] → no_short_row lay → is_Ok (@IsValidMove Knight x y moveX moveY inv lay).
Proof.
  intros Hne Hrows.
  destruct (decide (0 ≤ x + moveX < Z.of_nat (rows lay) ∧
                    0 ≤ y + moveY < Z.of_nat (cols lay))) as [[Hx Hy]|Hout].
  - rewrite Knight_IsValidMove_inside by done.
    destruct (at2_no_short_row lay _ _ Hrows Hx Hy) as [key ->]. by eexists.
  - rewrite Knight_IsValidMove_outside by done. by eexists.
Qed.

Lemma knight_moves_shape (moveX moveY : Z) :
  (moveX, moveY) ∈ @GetMoves Knight ↔ knight_shape moveX moveY.
Proof.
  cbn [GetMoves Knight]. unfold Knight.GetMoves, knight_shape.
  rewrite !elem_of_cons, elem_of_nil. split.
  - intros H. repeat (destruct H as [[= -> ->]|H]; [lia|]). done.
  - intros H.
    assert ((moveX = 1 ∨ moveX = -1) ∧ (moveY = 2 ∨ moveY = -2) ∨
            (moveX = 2 ∨ moveX = -2) ∧ (moveY = 1 ∨ moveY = -1)) as Hc by lia.
    destruct Hc as [[[-> | ->] [-> | ->]]|[[-> | ->] [-> | ->]]];
      repeat first [left; reflexivity | right].
Qed.

Lemma knight_shape_opposite (moveX moveY : Z) :
  knight_shape moveX moveY → knight_shape (- moveX) (- moveY).
Proof. unfold knight_shape. lia. Qed.

(** X3: the moves of the knight are eight different offsets, and they are
    exactly the offsets of the shape [IsValidMove] asks for, so that for
    them the test of the shape never decides; the opposite of a move of
    the knight is a move of the knight. *)
Theorem Knight_GetMoves_shape (x y moveX moveY : Z) (inv : ascii) (lay : CharVector2D) :
  length (@GetMoves Knight) = 8%nat ∧ NoDup (@GetMoves Knight) ∧
  ((moveX, moveY) ∈ @GetMoves Knight ↔ knight_shape moveX moveY) ∧
  ((moveX, moveY) ∈ @GetMoves Knight → opposite (moveX, moveY) ∈ @GetMoves Knight) ∧
  ((moveX, moveY) ∈ @GetMoves Knight →
   (@IsValidMove Knight x y moveX moveY inv lay = Ok true ↔
    (0 ≤ x + moveX < Z.of_nat (rows lay)) ∧ (0 ≤ y + moveY < Z.of_nat (cols lay)) ∧
    ∃ key, at2 lay (x + moveX) (y + moveY) = Ok key ∧ key ≠ inv)).
Proof.
  split; [done|]. split.
  { apply (bool_decide_unpack (NoDup Knight.GetMoves)). by vm_compute. }
  split; [apply knight_moves_shape|]. split.
  - intros Hin. unfold opposite. cbn [fst snd].
    by apply knight_moves_shape, knight_shape_opposite, knight_moves_shape.
  - intros Hin%knight_moves_shape. split; [apply Knight_valid_move_lands|].
    intros (Hx & Hy & key & Hkey & Hne).
    rewrite Knight_IsValidMove_inside, Hkey, bind_of_Ok by done. f_equal.
    apply andb_true_iff. split; [by apply negb_true_iff, Ascii.eqb_neq|].
    by apply knight_shape_true.
Qed.

(** X4: [IsValidMove] of the knight returns a boolean for every position
    and offset exactly on the layouts that have a row and no row shorter
    than the first; on any other layout some call reads outside a
    vector. *)
Theorem IsValidMove_defined_iff (inv : ascii) (lay : CharVector2D) :
  (∀ x y moveX moveY, is_Ok (@IsValidMove Knight x y moveX moveY inv lay)) ↔
  lay ≠ [] ∧ no_short_row lay.
Proof.
  split.
  - intros Hdef. assert (Hne : lay ≠ []).
    { intros ->. by destruct (Hdef 0 0 0 0) as [b Hb]. }
    split; [done|]. apply Forall_lookup. intros a row Hrow.
    destruct (decide (cols lay ≤ length row)%nat) as [|Hshort]; [done|]. exfalso.
    destruct (Hdef (Z.of_nat a) 0 0 (Z.of_nat (length row))) as [b Hb].
    rewrite Knight_IsValidMove_inside in Hb.
    + apply bind_Ok in Hb as (key & Hkey & _).
      apply at2_Ok in Hkey as (_ & _ & row' & Hrow' & Hkey).
      replace (Z.to_nat (Z.of_nat a + 0)) with a in Hrow' by lia.
      replace (Z.to_nat (0 + Z.of_nat (length row))) with (length row) in Hkey by lia.
      rewrite Hrow in Hrow'. injection Hrow' as <-.
      apply lookup_lt_Some in Hkey. lia.
    + apply lookup_lt_Some in Hrow. unfold rows. lia.
    + lia.
  - intros [Hne Hrows] x y moveX moveY. by apply Knight_IsValidMove_no_short_row.
Qed.

(** ** The keyboard layout *)

(** X5: a layout that is constructed gives back the key and the table it
    was constructed from, and reports at least one row and one column: the
    number of rows of the table and the length of its first row. *)
Theorem KeyboardLayout_getters (inv : ascii) (lay : CharVector2D) (kl : KeyboardLayout) :
  KeyboardLayout.new inv lay = Ok kl →
  KeyboardLayout.GetLayout kl = lay ∧
  KeyboardLayout.GetInvalidKey kl = inv ∧
  KeyboardLayout.GetRows kl = length lay ∧
  (0 < KeyboardLayout.GetRows kl)%nat ∧
  (0 < KeyboardLayout.GetCols kl)%nat ∧
  ∃ row0 rest, lay = row0 :: rest ∧ KeyboardLayout.GetCols kl = length row0.
Proof.
  unfold KeyboardLayout.new. destruct lay as [|[|key row0] rest]; try discriminate.
  intros [= <-].
  unfold KeyboardLayout.GetLayout, KeyboardLayout.GetInvalidKey,
    KeyboardLayout.GetRows, KeyboardLayout.GetCols. cbn.
  repeat split; try lia. by exists (key :: row0), rest.
Qed.

Lemma KeyboardLayout_getters_witness :
  KeyboardLayout.new NUL main_layout = Ok {| invalidKey := NUL; layout := main_layout |} ∧
  KeyboardLayout.GetLayout {| invalidKey := NUL; layout := main_layout |} = main_layout ∧
  KeyboardLayout.GetInvalidKey {| invalidKey := NUL; layout := main_layout |} = NUL ∧
  KeyboardLayout.GetRows {| invalidKey := NUL; layout := main_layout |}
    = length main_layout ∧
  (0 < KeyboardLayout.GetRows {| invalidKey := NUL; layout := main_layout |})%nat ∧
  (0 < KeyboardLayout.GetCols {| invalidKey := NUL; layout := main_layout |})%nat ∧
  ∃ row0 rest, main_layout = row0 :: rest ∧
    KeyboardLayout.GetCols {| invalidKey := NUL; layout := main_layout |} = length row0.
Proof.
  split; [reflexivity|].
  apply (KeyboardLayout_getters NUL main_layout). reflexivity.
Defined.

(** ** The table of the valid moves, on any layout *)

Lemma table_cells_read (piece : ChessPiece) (inv : ascii) (lay : CharVector2D)
    (l : list Coordinates) (km0 km : ValidKeyMoves) (c : Coordinates) :
  for_each l (table_cell piece inv lay) km0 = Ok km → c ∈ l →
  is_Ok (at2 lay c.1 c.2).
Proof.
  revert km0. induction l as [|c' l IH]; intros km0 H Hc.
  - by apply elem_of_nil in Hc.
  - cbn [for_each] in H. apply bind_Ok in H as (km1 & Hc' & H).
    apply elem_of_cons in Hc as [->|Hc]; [|by eapply IH].
    unfold table_cell in Hc'. apply bind_Ok in Hc' as (key & Hkey & _). by exists key.
Qed.

Lemma table_cell_no_short_row (inv : ascii) (lay : CharVector2D) (c : Coordinates)
    (km : ValidKeyMoves) :
  no_short_row lay → c ∈ cells lay → is_Ok (table_cell Knight inv lay c km).
Proof.
  intros Hrows Hc. unfold table_cell. apply elem_of_cells in Hc as [Hx Hy].
  assert (Hne : lay ≠ []) by (intros ->; simpl in Hx; lia).
  destruct (at2_no_short_row lay c.1 c.2 Hrows Hx Hy) as [key ->].
  rewrite bind_of_Ok. destruct (negb (Ascii.eqb key inv)); [|by eexists].
  destruct (valid_moves_at_defined Knight inv lay c.1 c.2) as [moves ->].
  { intros. by apply Knight_IsValidMove_no_short_row. }
  rewrite bind_of_Ok. by eexists.
Qed.

(** X6: the table of the knight is built, from whatever entries there
    are, exactly when no row of the layout is shorter than the first one;
    otherwise the loops read outside a row. *)
Theorem SetValidMovesForAllKeys_defined_iff (inv : ascii) (lay : CharVector2D)
    (km0 : ValidKeyMoves) :
  is_Ok (SetValidMovesForAllKeys {| invalidKey := inv; layout := lay |} Knight km0) ↔
  no_short_row lay.
Proof.
  rewrite SetValidMovesForAllKeys_cells. cbn [layout invalidKey]. split.
  - intros [km Hkm]. apply Forall_lookup. intros a row Hrow.
    destruct (cols lay) as [|n] eqn:Hcols; [lia|].
    destruct (table_cells_read Knight inv lay _ _ _ (Z.of_nat a, Z.of_nat n) Hkm)
      as [key Hkey].
    { apply elem_of_cells. apply lookup_lt_Some in Hrow. unfold rows. simpl. lia. }
    apply at2_Ok in Hkey as (_ & _ & row' & Hrow' & Hkey). cbn [fst snd] in *.
    rewrite Nat2Z.id in Hrow', Hkey. rewrite Hrow in Hrow'. injection Hrow' as <-.
    apply lookup_lt_Some in Hkey. lia.
  - intros Hrows.
    assert (Hl : ∀ c, c ∈ cells lay → c ∈ cells lay) by done.
    revert km0 Hl. generalize (cells lay) at 1 3.
    induction l as [|c l IH]; intros km0 Hl; [by eexists|].
    cbn [for_each].
    destruct (table_cell_no_short_row inv lay c km0 Hrows) as [km1 ->];
      [apply Hl; by left|].
    rewrite bind_of_Ok. apply IH. intros. apply Hl. by right.
Qed.

(** X7: in the table built from a layout, [GetValidMovesForAKey] returns
    for a key exactly when the key is not the invalid key and is on a cell
    the loops visit; for every other key, the invalid key among them, it
    throws [std::out_of_range]. *)
Theorem GetValidMovesForAKey_built (kl : KeyboardLayout) (piece : ChessPiece)
    (km : ValidKeyMoves) (key : ascii) :
  SetValidMovesForAllKeys kl piece ∅ = Ok km →
  (is_Ok (GetValidMovesForAKey km key) ↔
   key ≠ invalidKey kl ∧
   ∃ c, c ∈ cells (layout kl) ∧ at2 (layout kl) c.1 c.2 = Ok key) ∧
  (is_Ok (GetValidMovesForAKey km key) ∨
   GetValidMovesForAKey km key = Throw (out_of_range "unordered_map::at")).
Proof.
  intros Hkm. rewrite SetValidMovesForAllKeys_cells in Hkm.
  pose proof (table_lookup _ _ _ _ _ _ key Hkm) as Hkey. rewrite lookup_empty in Hkey.
  unfold GetValidMovesForAKey. split; [split|].
  - intros [moves Hmoves]. destruct (km !! key) as [moves'|]; [|discriminate].
    case_decide as Hne; [discriminate|]. split; [done|].
    destruct (first_cell (layout kl) key (cells (layout kl))) as [c|] eqn:Hc;
      [|discriminate].
    exists c. by apply first_cell_Some in Hc.
  - intros (Hne & c & Hc & Hcell).
    destruct (first_cell_is_Some _ _ _ _ Hc Hcell) as [c0 Hc0].
    rewrite decide_False, Hc0 in Hkey by done.
    apply first_cell_Some in Hc0 as [Hin0 Hcell0].
    destruct (table_moves_defined _ _ _ _ _ _ c0 key Hkm Hin0 Hcell0 Hne) as [moves Hm].
    rewrite Hm in Hkey. rewrite Hkey. by eexists.
  - destruct (km !! key); [left; by eexists|by right].
Qed.

Lemma GetValidMovesForAKey_built_witness :
  ∃ km,
    SetValidMovesForAllKeys {| invalidKey := NUL; layout := main_layout |} Knight ∅
      = Ok km ∧
    (is_Ok (GetValidMovesForAKey km NUL) ↔
     NUL ≠ NUL ∧ ∃ c, c ∈ cells main_layout ∧ at2 main_layout c.1 c.2 = Ok NUL) ∧
    (is_Ok (GetValidMovesForAKey km NUL) ∨
     GetValidMovesForAKey km NUL = Throw (out_of_range "unordered_map::at")).
Proof.
  destruct (SetValidMovesForAllKeys {| invalidKey := NUL; layout := main_layout |}
              Knight ∅) as [km| | |] eqn:Hkm; try (vm_compute in Hkm; discriminate Hkm).
  exists km. split; [reflexivity|].
  exact (GetValidMovesForAKey_built {| invalidKey := NUL; layout := main_layout |}
           Knight km NUL Hkm).
Defined.

Lemma valid_moves_at_complete (piece : ChessPiece) (inv : ascii) (lay : CharVector2D)
    (i j : Z) (moves : list Coordinates) (move : Coordinates) :
  valid_moves_at piece inv lay i j = Ok moves →
  move ∈ @GetMoves piece → @IsValidMove piece i j move.1 move.2 inv lay = Ok true →
  move ∈ moves.
Proof.
  unfold valid_moves_at. intros H Hin Hvalid.
  enough (Hgen : ∀ gm acc res,
    for_each gm (λ move moves,
      ok ← @IsValidMove piece i j move.1 move.2 inv lay;
      Ok (if ok : bool then moves ++ [(move.1, move.2)] else moves)) acc = Ok res →
    (move ∈ acc ∨ move ∈ gm) → move ∈ res).
  { eapply Hgen; [exact H|by right]. }
  clear H Hin. induction gm as [|m gm IH]; intros acc res H Hor.
  - injection H as <-. destruct Hor as [?|?%elem_of_nil]; done.
  - cbn [for_each] in H. apply bind_Ok in H as (acc1 & H1 & H).
    apply bind_Ok in H1 as (ok & Hok & [= <-]).
    apply (IH _ _ H). destruct Hor as [Hacc|[->|Hgm]%elem_of_cons].
    + left. destruct ok; [|done]. apply elem_of_app. by left.
    + left. rewrite Hvalid in Hok. injection Hok as <-.
      apply elem_of_app. right. destruct m. by left.
    + by right.
Qed.

(** X8: the list of moves kept for a cell holds exactly the moves of the
    piece that [IsValidMove] accepts from the cell, in the order in which
    the piece gives them. *)
Theorem valid_moves_at_exact (piece : ChessPiece) (inv : ascii) (lay : CharVector2D)
    (i j : Z) (moves : list Coordinates) :
  valid_moves_at piece inv lay i j = Ok moves →
  moves `sublist_of` (@GetMoves piece) ∧
  ∀ move, move ∈ moves ↔
          move ∈ @GetMoves piece ∧ @IsValidMove piece i j move.1 move.2 inv lay = Ok true.
Proof.
  intros H. pose proof (valid_moves_at_Ok _ _ _ _ _ _ H) as [Hsub Hvalid].
  split; [done|]. intros move. split.
  - intros Hin. split; [|by apply Hvalid]. by eapply elem_of_sublist.
  - intros [Hin Hok]. by eapply valid_moves_at_complete.
Qed.

Lemma valid_moves_at_exact_witness :
  valid_moves_at Knight NUL main_layout 0 0 = Ok [(1, 2); (2, 1)] ∧
  [(1, 2); (2, 1)] `sublist_of` (@GetMoves Knight) ∧
  ∀ move, move ∈ [(1, 2); (2, 1)] ↔
          move ∈ @GetMoves Knight ∧
          @IsValidMove Knight 0 0 move.1 move.2 NUL main_layout = Ok true.
Proof.
  split; [reflexivity|].
  apply (valid_moves_at_exact Knight NUL main_layout 0 0). reflexivity.
Defined.

(** X9: on a rectangular layout without a repeated key the table of the
    knight is symmetric: when an offset is listed for the key of a cell,
    the cell it leads to has a key with an entry, and that entry lists the
    opposite offset, which leads back. *)
Theorem built_table_symmetric (inv : ascii) (lay : CharVector2D) (km : ValidKeyMoves)
    (c move : Coordinates) (key : ascii) (moves : list Coordinates) :
  rectangular lay → distinct_keys inv lay →
  SetValidMovesForAllKeys {| invalidKey := inv; layout := lay |} Knight ∅ = Ok km →
  at2 lay c.1 c.2 = Ok key → km !! key = Some moves → move ∈ moves →
  ∃ key' moves',
    at2 lay (move_to c move).1 (move_to c move).2 = Ok key' ∧
    km !! key' = Some moves' ∧
    opposite move ∈ moves' ∧
    move_to (move_to c move) (opposite move) = c.
Proof.
  intros Hrect Hdist Hkm Hkey Hmoves Hmove.
  rewrite SetValidMovesForAllKeys_cells in Hkm. cbn [layout invalidKey] in Hkm.
  assert (Hback : move_to (move_to c move) (opposite move) = c).
  { destruct c, move. unfold move_to, opposite. simpl. f_equal; lia. }
  (* the entry of [key] is the list of the cell [c] *)
  pose proof (table_lookup _ _ _ _ _ _ key Hkm) as Hentry.
  rewrite lookup_empty, Hmoves in Hentry.
  case_decide as Hne; [discriminate|].
  destruct (first_cell lay key (cells lay)) as [c0|] eqn:Hc0; [|discriminate].
  apply first_cell_Some in Hc0 as [Hin0 Hkey0].
  assert (c = c0) as <- by (by eapply distinct_keys_inj).
  destruct (valid_moves_at Knight inv lay c.1 c.2) as [moves0| | |] eqn:Hvm;
    try discriminate.
  injection Hentry as <-.
  pose proof (valid_moves_at_Ok _ _ _ _ _ _ Hvm) as [Hsub Hvalid].
  assert (Hshape : knight_shape move.1 move.2).
  { apply knight_moves_shape. destruct move. by eapply elem_of_sublist. }
  destruct (Knight_valid_move_lands _ _ _ _ _ _ (Hvalid move Hmove))
    as (Hx & Hy & key' & Hkey' & Hne').
  (* the entry of the key it leads to is the list of that cell *)
  assert (Hdest : move_to c move ∈ cells lay) by (by apply elem_of_cells).
  destruct (table_moves_defined _ _ _ _ _ _ (move_to c move) key' Hkm Hdest Hkey' Hne')
    as [moves' Hvm'].
  destruct (first_cell_is_Some lay key' (cells lay) _ Hdest Hkey') as [c1 Hc1].
  pose proof (table_lookup _ _ _ _ _ _ key' Hkm) as Hentry'.
  rewrite lookup_empty, decide_False, Hc1 in Hentry' by done.
  apply first_cell_Some in Hc1 as [_ Hkey1].
  assert (move_to c move = c1) as <- by (by eapply distinct_keys_inj).
  rewrite Hvm' in Hentry'.
  exists key', moves'. split; [done|]. split; [done|]. split; [|done].
  eapply valid_moves_at_complete; [exact Hvm'|..].
  - unfold opposite. cbn [fst snd].
    by apply knight_moves_shape, knight_shape_opposite.
  - apply elem_of_cells in Hin0 as [Hcx Hcy].
    assert (Hc1 : (move_to c move).1 + (opposite move).1 = c.1)
      by (unfold move_to, opposite; simpl; lia).
    assert (Hc2 : (move_to c move).2 + (opposite move).2 = c.2)
      by (unfold move_to, opposite; simpl; lia).
    rewrite Knight_IsValidMove_inside, Hc1, Hc2, Hkey, bind_of_Ok by lia. f_equal.
    apply andb_true_iff. split; [by apply negb_true_iff, Ascii.eqb_neq|].
    apply knight_shape_true. unfold opposite. cbn [fst snd].
    by apply knight_shape_opposite.
Qed.

Lemma built_table_symmetric_witness :
  ∃ km moves,
    rectangular main_layout ∧ distinct_keys NUL main_layout ∧
    SetValidMovesForAllKeys {| invalidKey := NUL; layout := main_layout |} Knight ∅
      = Ok km ∧
    at2 main_layout 0 0 = Ok "A"%char ∧ km !! "A"%char = Some moves ∧ (1, 2) ∈ moves ∧
    ∃ key' moves',
      at2 main_layout (move_to (0, 0) (1, 2)).1 (move_to (0, 0) (1, 2)).2 = Ok key' ∧
      km !! key' = Some moves' ∧
      opposite (1, 2) ∈ moves' ∧
      move_to (move_to (0, 0) (1, 2)) (opposite (1, 2)) = (0, 0).
Proof.
  assert (Hrect : rectangular main_layout).
  { unfold rectangular. cbn. split; [lia|]. split; [lia|]. repeat constructor. }
  assert (Hdist : distinct_keys NUL main_layout).
  { apply (bool_decide_unpack (distinct_keys NUL main_layout)). by vm_compute. }
  destruct (SetValidMovesForAllKeys {| invalidKey := NUL; layout := main_layout |}
              Knight ∅) as [km| | |] eqn:Hkm; try (vm_compute in Hkm; discriminate Hkm).
  assert (Hentry : km !! "A"%char = Some [(1, 2); (2, 1)]).
  { vm_compute in Hkm. injection Hkm as <-. reflexivity. }
  exists km, [(1, 2); (2, 1)].
  split; [exact Hrect|]. split; [exact Hdist|]. split; [reflexivity|].
  split; [reflexivity|]. split; [exact Hentry|].
  assert (Hin : (1, 2) ∈ [(1, 2); (2, 1)]) by (by left).
  split; [exact Hin|].
  exact (built_table_symmetric NUL main_layout km (0, 0) (1, 2) "A" [(1, 2); (2, 1)]
           Hrect Hdist Hkm eq_refl Hentry Hin).
Defined.

(** ** What the enumeration stores *)

Lemma push_back_lookup (sequences : KeySequences) (key key' : ascii) (seq : string) :
  push_back sequences key seq !! key' =
  if decide (key = key') then Some (default [] (sequences !! key) ++ [seq])
  else sequences !! key'.
Proof. unfold push_back. apply lookup_insert. Qed.

Lemma well_stored_push_back (kb : Keyboard) (sequences : KeySequences) (key : ascii)
    (rest : string) :
  well_stored kb sequences → key ≠ invalidKey (keyboardLayout kb) →
  String.length (String key rest) = sequenceLength kb →
  (CountVowels (String key rest) ≤ maxVowelCount kb)%nat →
  well_stored kb (push_back sequences key (String key rest)).
Proof.
  intros Hws Hne Hlen Hv key' seqs Hseqs. rewrite push_back_lookup in Hseqs.
  case_decide as Hk; [|by apply Hws]. subst key'. injection Hseqs as <-.
  split; [by destruct (default [] (sequences !! key))|]. split; [done|].
  intros seq [Hold|Hnew%list_elem_of_singleton]%elem_of_app.
  - destruct (sequences !! key) as [old|] eqn:Hk; [|by apply elem_of_nil in Hold].
    by apply (Hws key old Hk).
  - subst seq. split; [done|]. split; [done|]. by exists rest.
Qed.

Lemma pushed_begins_with (lay : CharVector2D) (key : ascii) (rest : string) (x y : Z)
    (moves : list Coordinates) (cs : Queue) :
  pushed lay (String key rest) x y moves cs → Forall (begins_with key) cs.
Proof.
  intros Hp. induction Hp as [|move node moves cs (c & Hc & ->) _ IH]; constructor;
    [|done].
  exists (push_char rest c). cbn [fst]. unfold push_char. by rewrite append_cons.
Qed.

Lemma bfs_body_well_stored (kb : Keyboard) (i j : Z) (key : ascii)
    (front : string * Coordinates) (q q' : Queue) (sequences sequences' : KeySequences) :
  at2 (layout (keyboardLayout kb)) i j = Ok key → key ≠ invalidKey (keyboardLayout kb) →
  well_stored kb sequences → begins_with key front → Forall (begins_with key) q →
  bfs_body kb i j front q sequences = Ok (q', sequences') →
  well_stored kb sequences' ∧ Forall (begins_with key) q'.
Proof.
  intros Hkey Hne Hws [rest Hfront] Hq H. destruct front as [seq [x y]].
  cbn [fst] in Hfront. subst seq.
  destruct (decide (maxVowelCount kb < CountVowels (String key rest))%nat) as [Hv|Hv].
  { rewrite bfs_body_pruned in H by done. by injection H as <- <-. }
  destruct (decide (String.length (String key rest) = sequenceLength kb)) as [Hl|Hl].
  - rewrite bfs_body_complete in H by lia. rewrite Hkey, bind_of_Ok in H.
    injection H as <- <-. split; [|done]. apply well_stored_push_back; [done..|lia].
  - rewrite bfs_body_expand in H by lia.
    apply bind_Ok in H as (k & _ & H). apply bind_Ok in H as (moves & _ & H).
    apply bind_Ok in H as (q1 & Hpush & [= <- <-]).
    apply push_moves_Ok in Hpush as (cs & -> & Hcs). split; [done|].
    apply Forall_app. split; [done|]. by eapply pushed_begins_with.
Qed.

Lemma bfs_while_well_stored (kb : Keyboard) (fuel : nat) (i j : Z) (key : ascii)
    (q : Queue) (sequences sequences' : KeySequences) :
  at2 (layout (keyboardLayout kb)) i j = Ok key → key ≠ invalidKey (keyboardLayout kb) →
  well_stored kb sequences → Forall (begins_with key) q →
  bfs_while kb fuel i j q sequences = Ok sequences' → well_stored kb sequences'.
Proof.
  intros Hkey Hne. revert q sequences.
  induction fuel as [|fuel IH]; intros q sequences Hws Hq H.
  - destruct q; [by injection H as <-|discriminate].
  - destruct q as [|front q]; [by injection H as <-|].
    cbn [bfs_while] in H. apply bind_Ok in H as ([q' s'] & Hb & H).
    apply Forall_cons in Hq as [Hfront Hq].
    destruct (bfs_body_well_stored kb i j key front q q' sequences s') as [Hws' Hq'];
      try done.
    by apply (IH q' s').
Qed.

Lemma cells_well_stored (kb : Keyboard) (fuel : nat) (l : list Coordinates)
    (sequences sequences' : KeySequences) :
  well_stored kb sequences → for_each l (from_cell kb fuel) sequences = Ok sequences' →
  well_stored kb sequences'.
Proof.
  revert sequences. induction l as [|c l IH]; intros sequences Hws H.
  - by injection H as <-.
  - cbn [for_each] in H. apply bind_Ok in H as (s1 & Hc & H).
    apply (IH s1); [|done]. unfold from_cell in Hc. cbv zeta in Hc.
    apply bind_Ok in Hc as (key & Hkey & Hc).
    destruct (Ascii.eqb key (invalidKey (keyboardLayout kb))) eqn:Hne; simpl in Hc.
    + by injection Hc as <-.
    + apply Ascii.eqb_neq in Hne.
      apply (bfs_while_well_stored kb fuel c.1 c.2 key
               [(String key EmptyString, (c.1, c.2))] sequences s1 Hkey Hne Hws);
        [|exact Hc].
      constructor; [|constructor]. by exists EmptyString.
Qed.

(** X10: in the map the enumeration returns, every key has a list that
    is not empty, the key is not the invalid key, and every sequence
    stored under it has [sequenceLength] characters, at most
    [maxVowelCount] vowels, and the key as its first character. *)
Theorem GenerateSequences_well_stored (kb : Keyboard) (fuel : nat)
    (sequences : KeySequences) (key : ascii) (seqs : list string) :
  GenerateSequences kb fuel = Ok sequences → sequences !! key = Some seqs →
  seqs ≠ [] ∧ key ≠ invalidKey (keyboardLayout kb) ∧
  ∀ seq, seq ∈ seqs →
    String.length seq = sequenceLength kb ∧
    (CountVowels seq ≤ maxVowelCount kb)%nat ∧
    ∃ rest, seq = String key rest.
Proof.
  intros H Hseqs. rewrite GenerateSequences_cells in H.
  apply cells_well_stored in H; [by apply H|].
  intros key' seqs' Hempty. by rewrite lookup_empty in Hempty.
Qed.

Lemma GenerateSequences_well_stored_witness :
  GenerateSequences (keyboard_of 1 2 NUL [["B"; "C"]]%char ∅) 1
    = Ok (push_back (push_back ∅ "B" "B") "C" "C") ∧
  push_back (push_back ∅ "B" "B") "C" "C" !! "C"%char = Some ["C"] ∧
  ["C"] ≠ [] ∧ "C"%char ≠ NUL ∧
  ∀ seq, seq ∈ ["C"] →
    String.length seq = 1%nat ∧ (CountVowels seq ≤ 2)%nat ∧ ∃ rest, seq = String "C" rest.
Proof.
  assert (Hrun : GenerateSequences (keyboard_of 1 2 NUL [["B"; "C"]]%char ∅) 1
                 = Ok (push_back (push_back ∅ "B" "B") "C" "C")).
  { vm_compute. reflexivity. }
  assert (Hentry : push_back (push_back ∅ "B" "B") "C" "C" !! "C"%char = Some ["C"]).
  { vm_compute. reflexivity. }
  split; [exact Hrun|]. split; [exact Hentry|].
  exact (GenerateSequences_well_stored (keyboard_of 1 2 NUL [["B"; "C"]]%char ∅) 1
           _ "C" ["C"] Hrun Hentry).
Defined.

(** ** The sequences of the map and the walks *)

Lemma stored_push_back (sequences : KeySequences) (key : ascii) (seq : string) :
  stored (push_back sequences key seq) ≡ₚ seq :: stored sequences.
Proof.
  unfold stored, push_back. destruct (sequences !! key) as [old|] eqn:Hk; simpl.
  - rewrite <- insert_delete_eq.
    rewrite map_to_list_insert by apply lookup_delete_eq.
    rewrite <- (map_to_list_delete sequences key old Hk).
    rewrite !bind_cons. cbn [snd].
    rewrite <- app_assoc. cbn [app]. by rewrite <- Permutation_middle.
  - rewrite map_to_list_insert by done. by rewrite bind_cons.
Qed.

Lemma pending_strings_pushed (lay : CharVector2D) (km : ValidKeyMoves) (mv L : nat)
    (seq : string) (x y : Z) (moves : list Coordinates) (cs : Queue) (d : nat) :
  pushed lay seq x y moves cs → (L - String.length seq = S d)%nat →
  pending_strings lay km mv L cs =
  (move ← moves;
   match at2 lay (move_to (x, y) move).1 (move_to (x, y) move).2 with
   | Ok c => completions lay km mv d (push_char seq c) (move_to (x, y) move)
   | _ => []
   end).
Proof.
  intros Hp Hd. induction Hp as [|move node moves cs (c & Hc & ->) _ IH]; [done|].
  unfold pending_strings in *. rewrite !bind_cons, IH. f_equal.
  unfold move_to. cbn [fst snd]. rewrite Hc, length_push_char.
  by replace (L - S (String.length seq))%nat with d by lia.
Qed.

(** The completions of a sequence that is expanded are those of the
    sequences pushed for it. *)
Lemma completions_expand (lay : CharVector2D) (km : ValidKeyMoves) (mv d : nat)
    (seq : string) (pos : Coordinates) (key : ascii) (moves : list Coordinates) :
  (CountVowels seq ≤ mv)%nat → at2 lay pos.1 pos.2 = Ok key → km !! key = Some moves →
  completions lay km mv (S d) seq pos =
  (move ← moves;
   match at2 lay (move_to pos move).1 (move_to pos move).2 with
   | Ok c => completions lay km mv d (push_char seq c) (move_to pos move)
   | _ => []
   end).
Proof.
  intros Hv Hkey Hkm. unfold completions. cbn [extensions].
  apply Nat.ltb_ge in Hv. rewrite Hv, Hkey, Hkm. clear Hkm.
  induction moves as [|move moves IH]; [done|].
  rewrite !bind_cons, fmap_app, IH. f_equal. cbv zeta.
  destruct (at2 lay (move_to pos move).1 (move_to pos move).2) as [c| | |] eqn:Hc;
    try done.
  rewrite <- list_fmap_compose. apply list_fmap_ext. intros _ s _.
  unfold compose. cbn [labels]. by rewrite Hc, push_char_app.
Qed.

Lemma bfs_body_strings (kb : Keyboard) (i j : Z) (seq : string) (x y : Z)
    (q q' : Queue) (sequences sequences' : KeySequences) :
  (String.length seq ≤ sequenceLength kb)%nat →
  bfs_body kb i j (seq, (x, y)) q sequences = Ok (q', sequences') →
  stored sequences' ++
    pending_strings (layout (keyboardLayout kb)) (keyMoves kb) (maxVowelCount kb)
      (sequenceLength kb) q' ≡ₚ
  stored sequences ++
    pending_strings (layout (keyboardLayout kb)) (keyMoves kb) (maxVowelCount kb)
      (sequenceLength kb) ((seq, (x, y)) :: q).
Proof.
  intros Hlen H. unfold pending_strings at 2. rewrite bind_cons. cbn [fst snd].
  fold (pending_strings (layout (keyboardLayout kb)) (keyMoves kb) (maxVowelCount kb)
          (sequenceLength kb) q).
  destruct (decide (maxVowelCount kb < CountVowels seq)%nat) as [Hv|Hv].
  { rewrite bfs_body_pruned in H by done. injection H as <- <-.
    apply Nat.ltb_lt in Hv. unfold completions.
    by destruct (sequenceLength kb - String.length seq)%nat; cbn [extensions];
      rewrite Hv. }
  destruct (decide (String.length seq = sequenceLength kb)) as [Hl|Hl].
  - rewrite bfs_body_complete in H by lia.
    apply bind_Ok in H as (key & _ & [= <- <-]).
    rewrite stored_push_back.
    replace (sequenceLength kb - String.length seq)%nat with 0%nat by lia.
    apply Nat.nlt_ge, Nat.ltb_ge in Hv. unfold completions. cbn [extensions].
    rewrite Hv. cbn [fmap list_fmap labels]. rewrite append_empty_r.
    cbn [app]. by rewrite <- Permutation_middle.
  - rewrite bfs_body_expand in H by lia.
    apply bind_Ok in H as (key & Hkey & H).
    apply bind_Ok in H as (moves & Hmoves & H).
    apply bind_Ok in H as (q1 & Hpush & [= <- <-]).
    apply push_moves_Ok in Hpush as (cs & -> & Hcs).
    unfold GetValidMovesForAKey in Hmoves.
    destruct (keyMoves kb !! key) as [moves'|] eqn:Hkm; [|discriminate].
    injection Hmoves as ->.
    destruct (sequenceLength kb - String.length seq)%nat as [|d] eqn:Hd; [lia|].
    unfold pending_strings at 1. rewrite bind_app.
    fold (pending_strings (layout (keyboardLayout kb)) (keyMoves kb) (maxVowelCount kb)
            (sequenceLength kb) q).
    fold (pending_strings (layout (keyboardLayout kb)) (keyMoves kb) (maxVowelCount kb)
            (sequenceLength kb) cs).
    rewrite (pending_strings_pushed _ _ _ _ _ _ _ _ _ d Hcs Hd).
    rewrite (completions_expand _ _ _ d seq (x, y) key moves); [|lia|done..].
    apply Permutation_app_head, Permutation_app_comm.
Qed.

Lemma bfs_while_strings (kb : Keyboard) (fuel : nat) (i j : Z) (q : Queue)
    (sequences sequences' : KeySequences) :
  Forall (short (sequenceLength kb)) q →
  bfs_while kb fuel i j q sequences = Ok sequences' →
  stored sequences' ≡ₚ
  stored sequences ++
    pending_strings (layout (keyboardLayout kb)) (keyMoves kb) (maxVowelCount kb)
      (sequenceLength kb) q.
Proof.
  revert q sequences. induction fuel as [|fuel IH]; intros q sequences Hq H.
  - destruct q; [|discriminate]. injection H as <-. by rewrite app_nil_r.
  - destruct q as [|[seq [x y]] q].
    { injection H as <-. by rewrite app_nil_r. }
    cbn [bfs_while] in H. apply bind_Ok in H as ([q' s'] & Hb & H).
    apply Forall_cons in Hq as [Hs Hq].
    pose proof (bfs_body_strings kb i j seq x y q q' sequences s' Hs Hb) as Hstep.
    apply bfs_body_Ok in Hb as (_ & _ & Hq'); [|done..].
    apply IH in H; [|done]. cbn [fst snd] in H. by rewrite H.
Qed.

Lemma cells_strings (kb : Keyboard) (fuel : nat) (l : list Coordinates)
    (sequences sequences' : KeySequences) :
  (1 ≤ sequenceLength kb)%nat →
  for_each l (from_cell kb fuel) sequences = Ok sequences' →
  stored sequences' ≡ₚ
  stored sequences ++
    (labels (layout (keyboardLayout kb)) <$>
     (c ← l; walks_from (layout (keyboardLayout kb)) (invalidKey (keyboardLayout kb))
               (keyMoves kb) (maxVowelCount kb) (sequenceLength kb) c)).
Proof.
  intros HL. revert sequences. induction l as [|c l IH]; intros sequences H.
  - injection H as <-. by rewrite app_nil_r.
  - cbn [for_each] in H. apply bind_Ok in H as (s1 & Hc & H).
    apply IH in H. rewrite H, bind_cons, fmap_app, app_assoc.
    apply Permutation_app_tail. clear H IH.
    unfold from_cell in Hc. cbv zeta in Hc. unfold walks_from.
    apply bind_Ok in Hc as (key & Hkey & Hc). rewrite Hkey.
    destruct (negb (Ascii.eqb key (invalidKey (keyboardLayout kb)))).
    + apply bfs_while_strings in Hc.
      * rewrite Hc. apply Permutation_app_head.
        unfold pending_strings. rewrite bind_cons. cbn [mbind list_bind].
        rewrite app_nil_r.
        cbn [fst snd String.length]. unfold completions.
        rewrite <- list_fmap_compose. destruct c as [i j]. cbn [fst snd] in *.
        apply reflexive_eq, list_fmap_ext. intros _ s _.
        unfold compose. cbn [labels fst snd]. by rewrite Hkey.
      * constructor; [|constructor]. unfold short. simpl. lia.
    + injection Hc as <-. by rewrite app_nil_r.
Qed.

(** X11: on a table that answers every lookup, the sequences the
    enumeration returns are, apart from their order, the sequences of keys
    along the valid walks, one sequence for every walk. *)
Theorem GenerateSequences_stores_walks (kb : Keyboard) :
  (1 ≤ sequenceLength kb)%nat →
  closed_table (layout (keyboardLayout kb)) (invalidKey (keyboardLayout kb)) (keyMoves kb) →
  ∃ walks : list (list Coordinates),
    NoDup walks ∧
    (∀ w, w ∈ walks ↔
          valid_walk (layout (keyboardLayout kb)) (invalidKey (keyboardLayout kb))
            (keyMoves kb) (maxVowelCount kb) (sequenceLength kb) w) ∧
    (∃ fuel sequences,
       GenerateSequences kb fuel = Ok sequences ∧
       stored sequences ≡ₚ labels (layout (keyboardLayout kb)) <$> walks) ∧
    (∀ fuel sequences,
       GenerateSequences kb fuel = Ok sequences →
       stored sequences ≡ₚ labels (layout (keyboardLayout kb)) <$> walks).
Proof.
  intros HL Hclosed.
  exists (all_walks (layout (keyboardLayout kb)) (invalidKey (keyboardLayout kb))
            (keyMoves kb) (maxVowelCount kb) (sequenceLength kb)).
  assert (Hall : ∀ fuel sequences, GenerateSequences kb fuel = Ok sequences →
            stored sequences ≡ₚ
            labels (layout (keyboardLayout kb)) <$>
              all_walks (layout (keyboardLayout kb)) (invalidKey (keyboardLayout kb))
                (keyMoves kb) (maxVowelCount kb) (sequenceLength kb)).
  { intros fuel sequences H. rewrite GenerateSequences_cells in H.
    apply cells_strings in H; [|done]. rewrite H. unfold stored.
    by rewrite map_to_list_empty. }
  split; [by eapply NoDup_all_walks, closed_table_NoDup|].
  split; [intros w; by apply elem_of_all_walks|]. split; [|exact Hall].
  destruct (GenerateSequences_closed kb _ Hclosed HL (Nat.le_refl _))
    as (sequences & H & _).
  eexists _, sequences. split; [exact H|]. by eapply Hall.
Qed.

Lemma GenerateSequences_stores_walks_witness :
  ∃ km, (1 ≤ 10)%nat ∧ closed_table main_layout NUL km ∧
    ∃ walks : list (list Coordinates),
      NoDup walks ∧
      (∀ w, w ∈ walks ↔ valid_walk main_layout NUL km 2 10 w) ∧
      (∃ fuel sequences,
         GenerateSequences (keyboard_of 10 2 NUL main_layout km) fuel = Ok sequences ∧
         stored sequences ≡ₚ labels main_layout <$> walks) ∧
      (∀ fuel sequences,
         GenerateSequences (keyboard_of 10 2 NUL main_layout km) fuel = Ok sequences →
         stored sequences ≡ₚ labels main_layout <$> walks).
Proof.
  destruct main_layout_closed as (km & _ & Hclosed). exists km.
  split; [lia|]. split; [exact Hclosed|].
  apply (GenerateSequences_stores_walks (keyboard_of 10 2 NUL main_layout km)).
  - simpl. lia.
  - exact Hclosed.
Defined.

(** ** What is printed *)

Lemma total_sequences_stored (sequences : KeySequences) :
  total_sequences sequences = length (stored sequences).
Proof.
  unfold total_sequences, stored. rewrite map_fold_foldr.
  induction (map_to_list sequences) as [|[k v] l IH]; [done|].
  rewrite bind_cons, length_app. simpl. lia.
Qed.

(** X12: when the enumeration returns, [displayTotalSequences] writes one
    line to the standard output and nothing to the standard error; the
    number on the line is the number of sequences in all the lists of the
    map, reduced to a 32-bit [int]: it is that number exactly when the
    number is below [2 ^ 31]. *)
Theorem displayTotalSequences_prints (kb : Keyboard) (fuel : nat) (io : Streams)
    (sequences : KeySequences) :
  GenerateSequences kb fuel = Ok sequences →
  displayTotalSequences kb fuel io =
    (to_cout io ("Total number of sequences: " +:+
                 show_int (to_int (Z.of_nat (length (stored sequences)))) +:+ endl),
     Ok ()) ∧
  cerr (displayTotalSequences kb fuel io).1 = cerr io ∧
  (- 2 ^ 31 ≤ to_int (Z.of_nat (length (stored sequences))) < 2 ^ 31) ∧
  (to_int (Z.of_nat (length (stored sequences))) = Z.of_nat (length (stored sequences)) ↔
   Z.of_nat (length (stored sequences)) < 2 ^ 31).
Proof.
  intros H. unfold displayTotalSequences. rewrite H, total_int, total_sequences_stored.
  split; [done|]. split; [done|].
  set (n := Z.of_nat (length (stored sequences))).
  assert (Hrange : - 2 ^ 31 ≤ to_int n < 2 ^ 31).
  { unfold to_int. pose proof (Z.mod_pos_bound (n + 2 ^ 31) (2 ^ 32)). lia. }
  split; [exact Hrange|]. split.
  - intros Heq. lia.
  - intros Hlt. apply to_int_small. lia.
Qed.

Lemma displayTotalSequences_prints_witness :
  GenerateSequences (keyboard_of 1 2 NUL [["B"; "C"]]%char ∅) 1
    = Ok (push_back (push_back ∅ "B" "B") "C" "C") ∧
  displayTotalSequences (keyboard_of 1 2 NUL [["B"; "C"]]%char ∅) 1
      {| cout := ""; cerr := "" |} =
    (to_cout {| cout := ""; cerr := "" |}
       ("Total number of sequences: " +:+
        show_int (to_int (Z.of_nat
          (length (stored (push_back (push_back ∅ "B" "B") "C" "C"))))) +:+ endl),
     Ok ()) ∧
  cerr (displayTotalSequences (keyboard_of 1 2 NUL [["B"; "C"]]%char ∅) 1
          {| cout := ""; cerr := "" |}).1 = "" ∧
  (- 2 ^ 31 ≤ to_int (Z.of_nat
      (length (stored (push_back (push_back ∅ "B" "B") "C" "C")))) < 2 ^ 31) ∧
  (to_int (Z.of_nat (length (stored (push_back (push_back ∅ "B" "B") "C" "C")))) =
     Z.of_nat (length (stored (push_back (push_back ∅ "B" "B") "C" "C"))) ↔
   Z.of_nat (length (stored (push_back (push_back ∅ "B" "B") "C" "C"))) < 2 ^ 31).
Proof.
  assert (Hrun : GenerateSequences (keyboard_of 1 2 NUL [["B"; "C"]]%char ∅) 1
                 = Ok (push_back (push_back ∅ "B" "B") "C" "C")).
  { vm_compute. reflexivity. }
  split; [exact Hrun|].
  exact (displayTotalSequences_prints (keyboard_of 1 2 NUL [["B"; "C"]]%char ∅) 1
           {| cout := ""; cerr := "" |} _ Hrun).
Defined.



(** ** How many sequences there can be *)

Lemma length_bind_le {A B : Type} (f : A → list B) (l : list A) (k : nat) :
  (∀ a, a ∈ l → (length (f a) ≤ k)%nat) → (length (l ≫= f) ≤ length l * k)%nat.
Proof.
  induction l as [|a l IH]; intros Hf; [done|].
  rewrite bind_cons, length_app. simpl.
  assert (Ha : (length (f a) ≤ k)%nat) by (apply Hf; by left).
  assert (length (l ≫= f) ≤ length l * k)%nat.
  { apply IH. intros. apply Hf. by right. }
  lia.
Qed.

Lemma extensions_bound (lay : CharVector2D) (km : ValidKeyMoves) (mv b d : nat)
    (seq : string) (pos : Coordinates) :
  (∀ key moves, km !! key = Some moves → (length moves ≤ b)%nat) →
  (length (extensions lay km mv d seq pos) ≤ b ^ d)%nat.
Proof.
  intros Hb. revert seq pos. induction d as [|d IH]; intros seq pos.
  - cbn [extensions]. destruct (mv <? CountVowels seq)%nat; simpl; lia.
  - cbn [extensions]. destruct (mv <? CountVowels seq)%nat; [simpl; lia|].
    destruct (at2 lay pos.1 pos.2) as [key| | |]; try (simpl; lia).
    destruct (km !! key) as [moves|] eqn:Hkm; [|simpl; lia].
    etrans; [apply (length_bind_le _ moves (b ^ d))|].
    + intros move _. cbv zeta.
      destruct (at2 lay (move_to pos move).1 (move_to pos move).2); try (simpl; lia).
      rewrite length_fmap. apply IH.
    + rewrite Nat.pow_succ_r'. apply Nat.mul_le_mono_r. by eapply Hb.
Qed.

Lemma length_cells (lay : CharVector2D) : length (cells lay) = (rows lay * cols lay)%nat.
Proof.
  assert (Hgen : ∀ l1 l2 : list Z,
    length (i ← l1; (λ j, (i, j)) <$> l2) = (length l1 * length l2)%nat).
  { intros l1 l2. induction l1 as [|i l1 IH]; [done|].
    rewrite bind_cons, length_app, length_fmap, IH. simpl. lia. }
  unfold cells, range. rewrite Hgen, !length_seqZ. lia.
Qed.

Lemma built_table_lengths (kl : KeyboardLayout) (piece : ChessPiece)
    (km : ValidKeyMoves) (key : ascii) (moves : list Coordinates) :
  SetValidMovesForAllKeys kl piece ∅ = Ok km → km !! key = Some moves →
  (length moves ≤ length (@GetMoves piece))%nat.
Proof.
  intros Hkm Hmoves. rewrite SetValidMovesForAllKeys_cells in Hkm.
  rewrite (table_lookup _ _ _ _ _ _ key Hkm), lookup_empty in Hmoves.
  case_decide; [discriminate|].
  destruct (first_cell (layout kl) key (cells (layout kl))) as [c|]; [|discriminate].
  destruct (valid_moves_at piece (invalidKey kl) (layout kl) c.1 c.2)
    as [moves'| | |] eqn:Hvm; try discriminate.
  injection Hmoves as ->. apply valid_moves_at_Ok in Hvm as [Hsub _].
  by apply sublist_length.
Qed.

(** X14: with the table the constructor builds, the enumeration returns
    at most [rows * cols * m ^ (sequenceLength - 1)] sequences, where [m]
    is the number of moves of the piece: eight for the knight. *)
Theorem count_bound (kb : Keyboard) (fuel : nat) (sequences : KeySequences) :
  SetValidMovesForAllKeys (keyboardLayout kb) (chessPiecePtr kb) ∅ = Ok (keyMoves kb) →
  (1 ≤ sequenceLength kb)%nat →
  GenerateSequences kb fuel = Ok sequences →
  (total_sequences sequences ≤
   rows (layout (keyboardLayout kb)) * cols (layout (keyboardLayout kb)) *
   length (@GetMoves (chessPiecePtr kb)) ^ (sequenceLength kb - 1))%nat.
Proof.
  intros Hkm HL H. rewrite (GenerateSequences_Ok kb fuel sequences HL H).
  rewrite <- length_cells. unfold all_walks. apply length_bind_le.
  intros c _. unfold walks_from.
  destruct (at2 (layout (keyboardLayout kb)) c.1 c.2); try (simpl; lia).
  destruct (negb (Ascii.eqb a (invalidKey (keyboardLayout kb)))); [|simpl; lia].
  rewrite length_fmap. apply extensions_bound.
  intros key moves Hmoves. by eapply built_table_lengths.
Qed.

Lemma count_bound_witness :
  ∃ km fuel sequences,
    SetValidMovesForAllKeys {| invalidKey := NUL; layout := main_layout |} Knight ∅
      = Ok km ∧
    (1 ≤ 10)%nat ∧
    GenerateSequences (keyboard_of 10 2 NUL main_layout km) fuel = Ok sequences ∧
    (total_sequences sequences ≤
     rows main_layout * cols main_layout * length (@GetMoves Knight) ^ (10 - 1))%nat.
Proof.
  destruct main_layout_closed as (km & Hkm & Hclosed).
  destruct (GenerateSequences_closed (keyboard_of 10 2 NUL main_layout km) _ Hclosed
              ltac:(simpl; lia) (Nat.le_refl _)) as (sequences & Hrun & _).
  eexists km, _, sequences. split; [exact Hkm|]. split; [lia|]. split; [exact Hrun|].
  exact (count_bound (keyboard_of 10 2 NUL main_layout km) _ sequences Hkm
           ltac:(simpl; lia) Hrun).
Defined.

(** ** The order of the queue *)

(** X15: the queue is kept in the order of the lengths: when it holds
    sequences of one length followed by sequences one key longer, it does
    so again after an iteration, and the sequence that is dequeued is no
    longer than any sequence left in the queue. *)
Theorem bfs_body_level_ordered (kb : Keyboard) (i j : Z) (front : string * Coordinates)
    (q q' : Queue) (sequences sequences' : KeySequences) :
  level_ordered (front :: q) →
  bfs_body kb i j front q sequences = Ok (q', sequences') →
  level_ordered q' ∧
  Forall (λ node, (String.length front.1 ≤ String.length node.1)%nat) q'.
Proof.
  intros (n & q1 & q2 & Hq & H1 & H2) H. destruct front as [seq [x y]].
  apply bfs_body_pushes in H as (cs & -> & Hcs & _). cbn [fst].
  destruct q1 as [|front1 q1].
  - cbn [app] in Hq. subst q2. apply Forall_cons in H2 as [Hfront H2].
    cbn [fst] in Hfront. split.
    + exists (S n), q, cs. split; [done|]. split; [done|]. by rewrite <- Hfront.
    + apply Forall_app. split.
      * eapply Forall_impl; [exact H2|]. intros node Hn. simpl in Hn. lia.
      * eapply Forall_impl; [exact Hcs|]. intros node Hn. simpl in Hn. lia.
  - cbn [app] in Hq. injection Hq as <- ->. apply Forall_cons in H1 as [Hfront H1].
    cbn [fst] in Hfront. split.
    + exists n, q1, (q2 ++ cs). split; [by rewrite app_assoc|]. split; [done|].
      apply Forall_app. split; [done|]. by rewrite <- Hfront.
    + rewrite !Forall_app. split; [split|].
      * eapply Forall_impl; [exact H1|]. intros node Hn. simpl in Hn. lia.
      * eapply Forall_impl; [exact H2|]. intros node Hn. simpl in Hn. lia.
      * eapply Forall_impl; [exact Hcs|]. intros node Hn. simpl in Hn. lia.
Qed.

Lemma bfs_body_level_ordered_witness :
  level_ordered [("A", (0, 0)); ("B", (0, 1))] ∧
  bfs_body (keyboard_of 3 2 NUL main_layout {["A"%char := [(1, 2); (2, 1)]]}) 0 0
    ("A", (0, 0)) [("B", (0, 1))] ∅
    = Ok ([("B", (0, 1)); ("AH", (1, 2)); ("AL", (2, 1))], ∅) ∧
  level_ordered [("B", (0, 1)); ("AH", (1, 2)); ("AL", (2, 1))] ∧
  Forall (λ node : string * Coordinates,
            (String.length ("A", (0, 0)).1 ≤ String.length node.1)%nat)
    [("B", (0, 1)); ("AH", (1, 2)); ("AL", (2, 1))].
Proof.
  assert (Hq : level_ordered [("A", (0, 0)); ("B", (0, 1))]).
  { exists 1%nat, [("A", (0, 0)); ("B", (0, 1))], []. repeat constructor. }
  assert (Hrun : bfs_body (keyboard_of 3 2 NUL main_layout
                             {["A"%char := [(1, 2); (2, 1)]]}) 0 0
                   ("A", (0, 0)) [("B", (0, 1))] ∅
                 = Ok ([("B", (0, 1)); ("AH", (1, 2)); ("AL", (2, 1))], ∅)).
  { vm_compute. reflexivity. }
  split; [exact Hq|]. split; [exact Hrun|].
  exact (bfs_body_level_ordered _ 0 0 ("A", (0, 0)) [("B", (0, 1))] _ ∅ ∅ Hq Hrun).
Defined.

(** ** Runs that fail *)

Lemma bfs_while_more_fuel (kb : Keyboard) (fuel fuel' : nat) (i j : Z) (q : Queue)
    (sequences : KeySequences) :
  (fuel ≤ fuel')%nat → bfs_while kb fuel i j q sequences ≠ OutOfFuel →
  bfs_while kb fuel' i j q sequences = bfs_while kb fuel i j q sequences.
Proof.
  revert fuel' q sequences.
  induction fuel as [|fuel IH]; intros fuel' q sequences Hle Hrun.
  - destruct q; [by destruct fuel'|done].
  - destruct q as [|front q]; [by destruct fuel'|].
    destruct fuel' as [|fuel']; [lia|]. cbn [bfs_while] in *.
    destruct (bfs_body kb i j front q sequences) as [st| | |]; try done.
    rewrite !bind_of_Ok in *. apply IH; [lia|done].
Qed.

Lemma cells_more_fuel (kb : Keyboard) (fuel fuel' : nat) (l : list Coordinates)
    (sequences : KeySequences) :
  (fuel ≤ fuel')%nat → for_each l (from_cell kb fuel) sequences ≠ OutOfFuel →
  for_each l (from_cell kb fuel') sequences = for_each l (from_cell kb fuel) sequences.
Proof.
  intros Hle. revert sequences. induction l as [|c l IH]; intros sequences Hrun; [done|].
  cbn [for_each] in *.
  assert (Hc : from_cell kb fuel c sequences ≠ OutOfFuel).
  { intros Hc. by rewrite Hc in Hrun. }
  assert (Hc' : from_cell kb fuel' c sequences = from_cell kb fuel c sequences).
  { unfold from_cell in *. cbv zeta in *.
    destruct (at2 (layout (keyboardLayout kb)) c.1 c.2) as [key| | |]; try done.
    rewrite !bind_of_Ok in *.
    destruct (negb (Ascii.eqb key (invalidKey (keyboardLayout kb)))); [|done].
    by apply bfs_while_more_fuel. }
  rewrite Hc'. destruct (from_cell kb fuel c sequences) as [s1| | |]; try done.
  rewrite !bind_of_Ok in *. by apply IH.
Qed.

(** X16: for a sequence length of at least one the loops of the
    enumeration come to an end on every keyboard, also on those where a
    lookup fails or an index leaves the layout: beyond a number of
    iterations the run is never cut short, and its outcome, a map, an
    exception or undefined behaviour, is the same for every larger
    number. *)
Theorem GenerateSequences_terminates_always (kb : Keyboard) :
  (1 ≤ sequenceLength kb)%nat →
  ∃ bound, ∀ fuel, (bound ≤ fuel)%nat →
    GenerateSequences kb fuel ≠ OutOfFuel ∧
    GenerateSequences kb fuel = GenerateSequences kb bound.
Proof.
  intros HL.
  exists (enough_fuel (layout (keyboardLayout kb)) (keyMoves kb) (maxVowelCount kb)
            (sequenceLength kb)).
  intros fuel Hfuel. split; [by apply GenerateSequences_terminates|].
  rewrite !GenerateSequences_cells. apply cells_more_fuel; [done|].
  rewrite <- GenerateSequences_cells. by apply GenerateSequences_terminates.
Qed.

Lemma GenerateSequences_terminates_always_witness :
  ∃ kb,
    (KeyboardCtor.new 3 2 {| invalidKey := NUL; layout := repeated_key_layout |} Knight
       {| cout := ""; cerr := "" |}).2 = Ok kb ∧
    (1 ≤ sequenceLength kb)%nat ∧
    ∃ bound, ∀ fuel, (bound ≤ fuel)%nat →
      GenerateSequences kb fuel ≠ OutOfFuel ∧
      GenerateSequences kb fuel = GenerateSequences kb bound.
Proof.
  destruct (KeyboardCtor.new 3 2 {| invalidKey := NUL; layout := repeated_key_layout |}
              Knight {| cout := ""; cerr := "" |}) as [io [kb| | |]] eqn:Hkb;
    try (vm_compute in Hkb; discriminate Hkb).
  assert (HL : (1 ≤ sequenceLength kb)%nat).
  { vm_compute in Hkb. injection Hkb as _ <-. simpl. lia. }
  exists kb. split; [reflexivity|]. split; [exact HL|].
  exact (GenerateSequences_terminates_always kb HL).
Defined.

(** * The count, the sequences of keys and the bound on the vowels *)

(** ** Vowels, counted by the code and by the letters *)



(** ** Walks and sequences of keys *)







(** ** More vowels allowed *)

Section Caps.

Context (lay : CharVector2D) (inv : ascii) (km : ValidKeyMoves).





End Caps.




